(** * Pagination and query engine of [app.js]

    A shallow embedding of the pagination helper [paginate] and of the six
    query endpoints of [src/app.js] ([/api/users], [/api/products],
    [/api/users/search], [/api/products/filter], [/api/products/sorted],
    [/api/users/cursor]), followed by the properties of the engine.

    Conventions of the embedding.
    - The numbers that the handlers compute with are the integer-valued
      doubles, the two infinities and [NaN] ([JS.number]).  A finite number
      is [Num z] for the integer [z] it is; addition, subtraction and
      multiplication give the exact integer result rounded to the nearest
      double, ties to even, and an infinity past the largest double
      ([JS.round]).  The two zeros are one [Num 0]: the handlers never
      divide by a parameter that can be zero, and both are sent as [0].
      Array lengths, ids, prices and stocks are small integers and stay
      in [Z].
    - A JavaScript string is modelled by the bytes of its UTF-8 encoding
      ([string]); one well-formed text occurs in another on the bytes
      exactly when it does on the UTF-16 code units that [includes]
      compares.  On a string of ASCII characters [toLowerCase] lowers the
      letters [A]-[Z]; on any other string it is the function that the
      engine supplies ([JS.lowerUnicode]), about which two things are
      assumed: lowering what it returns changes nothing, and it returns no
      empty string.
    - A query parameter is [option string]: absent, or its decoded text.
    - The module-level arrays [users] and [products] live in a [world]
      that every handler threads through, so that the absence of writes is
      a statement and not a convention. *)

From Stdlib Require Import ZArith List String Ascii Bool Lia.
From Stdlib Require Import Sorted Permutation DecimalString DecimalNat.
Import ListNotations.
Open Scope string_scope.
Open Scope Z_scope.

(** ** The JavaScript built-ins that the handlers call *)

Module JS.

(** *** Numbers *)

Inductive number : Type :=
| Num (z : Z)
| Infinity
| NegInfinity
| NaN.

(** The double nearest to an integer: exact up to 2^53; beyond, the 53
    leading bits are kept and the rest rounded, ties to the even one; past
    the largest double the result is an infinity. *)
Definition round (z : Z) : number :=
  let a := Z.abs z in
  if a <? 2 ^ 53 then Num z
  else
    let e := Z.log2 a - 52 in
    let q := a / 2 ^ e in
    let r := a mod 2 ^ e in
    let half := 2 ^ (e - 1) in
    let q' := if (half <? r) || ((r =? half) && Z.odd q) then q + 1 else q in
    let m := q' * 2 ^ e in
    if 2 ^ 1024 <=? m then (if z <? 0 then NegInfinity else Infinity)
    else Num (if z <? 0 then - m else m).

(** [- a]. *)
Definition neg (a : number) : number :=
  match a with
  | Num z => Num (- z)
  | Infinity => NegInfinity
  | NegInfinity => Infinity
  | NaN => NaN
  end.

(** [a + b]. *)
Definition add (a b : number) : number :=
  match a, b with
  | NaN, _ | _, NaN => NaN
  | Num x, Num y => round (x + y)
  | Infinity, NegInfinity | NegInfinity, Infinity => NaN
  | Infinity, _ | _, Infinity => Infinity
  | NegInfinity, _ | _, NegInfinity => NegInfinity
  end.

(** [a - b]. *)
Definition sub (a b : number) : number := add a (neg b).

(** [a * b]: an infinity times zero is [NaN]. *)
Definition mul (a b : number) : number :=
  match a, b with
  | NaN, _ | _, NaN => NaN
  | Num x, Num y => round (x * y)
  | Num x, Infinity | Infinity, Num x =>
      if x =? 0 then NaN else if 0 <? x then Infinity else NegInfinity
  | Num x, NegInfinity | NegInfinity, Num x =>
      if x =? 0 then NaN else if 0 <? x then NegInfinity else Infinity
  | Infinity, Infinity | NegInfinity, NegInfinity => Infinity
  | Infinity, NegInfinity | NegInfinity, Infinity => NegInfinity
  end.

(** [a < b]: false as soon as one side is [NaN]. *)
Definition lt (a b : number) : bool :=
  match a, b with
  | NaN, _ | _, NaN => false
  | Num x, Num y => x <? y
  | _, NegInfinity | Infinity, _ => false
  | NegInfinity, _ | _, Infinity => true
  end.

(** [a > b]. *)
Definition gt (a b : number) : bool := lt b a.

(** [a <= b]. *)
Definition le (a b : number) : bool :=
  match a, b with
  | NaN, _ | _, NaN => false
  | Num x, Num y => x <=? y
  | NegInfinity, _ | _, Infinity => true
  | _, NegInfinity | Infinity, _ => false
  end.

(** [a >= b]. *)
Definition ge (a b : number) : bool := le b a.

(** [n || d] on numbers: [0] and [NaN] are falsy. *)
Definition or_default (n d : number) : number :=
  match n with
  | NaN => d
  | Num z => if z =? 0 then d else n
  | _ => n
  end.

(** [n || Infinity]. *)
Definition or_infinity (n : number) : number := or_default n Infinity.

(** *** [parseInt] *)

(** White space that [parseInt] skips: TAB, LF, VT, FF, CR and SPACE, and,
    in their UTF-8 encoding, U+00A0, U+1680, U+2000 to U+200A, U+2028,
    U+2029, U+202F, U+205F, U+3000 and U+FEFF. *)
Definition is_space (c : ascii) : bool :=
  let n := nat_of_ascii c in
  ((9 <=? n) && (n <=? 13))%nat || (n =? 32)%nat.

Definition is_space2 (c1 c2 : ascii) : bool :=
  ((nat_of_ascii c1 =? 194) && (nat_of_ascii c2 =? 160))%nat.

Definition is_space3 (c1 c2 c3 : ascii) : bool :=
  let n1 := nat_of_ascii c1 in
  let n2 := nat_of_ascii c2 in
  let n3 := nat_of_ascii c3 in
  ((n1 =? 225) && (n2 =? 154) && (n3 =? 128)
   || (n1 =? 226) && (n2 =? 128)
      && ((128 <=? n3) && (n3 <=? 138) || (n3 =? 168) || (n3 =? 169)
          || (n3 =? 175))
   || (n1 =? 226) && (n2 =? 129) && (n3 =? 159)
   || (n1 =? 227) && (n2 =? 128) && (n3 =? 128)
   || (n1 =? 239) && (n2 =? 187) && (n3 =? 191))%nat.

Fixpoint skip_spaces (s : string) : string :=
  match s with
  | String c1 s1 =>
      if is_space c1 then skip_spaces s1
      else
        match s1 with
        | String c2 s2 =>
            if is_space2 c1 c2 then skip_spaces s2
            else
              match s2 with
              | String c3 s3 =>
                  if is_space3 c1 c2 c3 then skip_spaces s3 else s
              | EmptyString => s
              end
        | EmptyString => s
        end
  | EmptyString => s
  end.

(** Value of a character as a digit: 0-9, a-z, A-Z. *)
Definition digit_value (c : ascii) : option Z :=
  let n := Z.of_nat (nat_of_ascii c) in
  if (48 <=? n) && (n <=? 57) then Some (n - 48)
  else if (97 <=? n) && (n <=? 122) then Some (n - 87)
  else if (65 <=? n) && (n <=? 90) then Some (n - 55)
  else None.

(** The longest prefix of digits of the radix, read as an integer;
    [None] when there is no digit at all. *)
Fixpoint read_digits (radix : Z) (acc : option Z) (s : string) : option Z :=
  match s with
  | String c s' =>
      match digit_value c with
      | Some d =>
          if d <? radix
          then read_digits radix
                 (Some (match acc with
                        | Some a => a * radix + d
                        | None => d
                        end)) s'
          else acc
      | None => acc
      end
  | EmptyString => acc
  end.

(** Radix 10, or 16 after a [0x] / [0X] prefix. *)
Definition read_unsigned (s : string) : option Z :=
  match s with
  | String "0"%char (String "x"%char s') => read_digits 16 None s'
  | String "0"%char (String "X"%char s') => read_digits 16 None s'
  | _ => read_digits 10 None s
  end.

(** The integer that the text denotes, before it becomes a number. *)
Definition read_integer (s : string) : option Z :=
  match skip_spaces s with
  | String "-"%char s' => option_map Z.opp (read_unsigned s')
  | String "+"%char s' => read_unsigned s'
  | s' => read_unsigned s'
  end.

(** [parseInt(string)] with no radix argument: [NaN] without a digit,
    otherwise the double nearest to the integer read (the engine rounds
    correctly, also past the 20 digits from which the language lets it
    approximate). *)
Definition parseInt_string (s : string) : number :=
  match read_integer s with
  | Some z => round z
  | None => NaN
  end.

(** [parseInt(req.query.x)]: an absent parameter is [undefined], whose
    string form has no digit. *)
Definition parseInt (p : option string) : number :=
  match p with
  | Some s => parseInt_string s
  | None => NaN
  end.

(** *** Strings *)

(** [s || d] on strings: the empty string and [undefined] are falsy. *)
Definition or_string (p : option string) (d : string) : string :=
  match p with
  | Some EmptyString => d
  | Some s => s
  | None => d
  end.

(** Truthiness of an optional string, as tested by [if (category)]. *)
Definition truthy (p : option string) : bool :=
  match p with
  | Some (String _ _) => true
  | _ => false
  end.

(** An ASCII character, and a string of them. *)
Definition is_ascii (c : ascii) : bool := (nat_of_ascii c <? 128)%nat.

Fixpoint all_ascii (s : string) : bool :=
  match s with
  | String c s' => is_ascii c && all_ascii s'
  | EmptyString => true
  end.

(** The lower-case form of an ASCII letter. *)
Definition lower_char (c : ascii) : ascii :=
  let n := nat_of_ascii c in
  if ((65 <=? n) && (n <=? 90))%nat then ascii_of_nat (n + 32) else c.

Fixpoint lower_ascii (s : string) : string :=
  match s with
  | String c s' => String (lower_char c) (lower_ascii s')
  | EmptyString => EmptyString
  end.

(** [toLowerCase] for a given case mapping of the strings that hold a
    character outside ASCII. *)
Definition lower_with (lowerUnicode : string -> string) (s : string)
  : string :=
  if all_ascii s then lower_ascii s else lowerUnicode s.

(** What the engine supplies: the Unicode case mapping, with its special
    cases, on the strings that hold a character outside ASCII.  Its result
    is in lower case, so that lowering it again changes nothing, and it is
    not empty. *)
Class Runtime : Type :=
  { lowerUnicode : string -> string;
    lowerUnicode_lowered :
      forall s, all_ascii s = false ->
                lower_with lowerUnicode (lowerUnicode s) = lowerUnicode s;
    lowerUnicode_not_empty :
      forall s, all_ascii s = false -> lowerUnicode s <> EmptyString }.

(** [String.prototype.toLowerCase]. *)
Definition toLowerCase {rt : Runtime} (s : string) : string :=
  lower_with lowerUnicode s.

(** [s.startsWith(t)], the inner loop of [includes]. *)
Fixpoint startsWith (s t : string) : bool :=
  match t, s with
  | EmptyString, _ => true
  | String _ _, EmptyString => false
  | String b t', String a s' => Ascii.eqb a b && startsWith s' t'
  end.

(** [s.includes(t)]: [t] occurs in [s] at some index. *)
Fixpoint includes (s t : string) : bool :=
  startsWith s t ||
  match s with
  | String _ s' => includes s' t
  | EmptyString => false
  end.

(** Template literal [`${n}`] for a natural number. *)
Definition show (n : nat) : string := NilEmpty.string_of_uint (Nat.to_uint n).

(** *** Arrays *)

(** [array.length]. *)
Definition length {A} (l : list A) : Z := Z.of_nat (List.length l).

(** The position that [slice] makes of an index: [NaN] counts as 0, a
    negative index counts from the end, and the result is clamped to the
    array. *)
Definition clamp_index (len : Z) (i : number) : Z :=
  match i with
  | Num z => if z <? 0 then Z.max (len + z) 0 else Z.min z len
  | Infinity => len
  | NegInfinity => 0
  | NaN => 0
  end.

(** [array.slice(start, end)]; an empty range gives []. *)
Definition slice {A} (l : list A) (start stop : number) : list A :=
  let len := length l in
  let k := clamp_index len start in
  let final := clamp_index len stop in
  firstn (Z.to_nat (Z.max (final - k) 0)) (skipn (Z.to_nat k) l).

(** [Math.ceil(a / b)] for an array length [a] and a number [b].  For a
    finite non-zero [b] the rounded quotient has the ceiling of the exact
    one; a quotient by an infinity is zero; division by zero gives
    [Infinity], or [NaN] for 0/0. *)
Definition ceil_div (a : Z) (b : number) : number :=
  match b with
  | Num z =>
      if z =? 0 then (if a =? 0 then NaN else Infinity)
      else Num (- ((- a) / z))
  | Infinity | NegInfinity => Num 0
  | NaN => NaN
  end.

(** [Array.prototype.sort(compare)].  The language requires the sort to be
    stable and, for a consistent comparator, to leave the array ordered by
    it, which fixes the result; it is computed here by insertion from the
    right, each element moving past the elements that compare strictly
    smaller.  The comparator may throw ([None]); the exception propagates.
    No comparison is made on an array of fewer than two elements. *)
Section Sort.
Context {A : Type} (compare : A -> A -> option Z).

Fixpoint insert (a : A) (l : list A) : option (list A) :=
  match l with
  | [] => Some [a]
  | b :: l' =>
      match compare a b with
      | Some c =>
          if 0 <? c then option_map (cons b) (insert a l') else Some (a :: l)
      | None => None
      end
  end.

Fixpoint sort (l : list A) : option (list A) :=
  match l with
  | [] => Some []
  | a :: l' =>
      match sort l' with
      | Some s => insert a s
      | None => None
      end
  end.
End Sort.

End JS.

(** ** Data model: the two mock collections *)

Module User.
Record t : Type := make
  { id : Z; name : string; email : string; age : Z; city : string }.
End User.

Module Product.
Record t : Type := make
  { id : Z; name : string; price : Z; category : string; stock : Z }.
End Product.

Definition cities : list string :=
  ["New York"; "Los Angeles"; "Chicago"; "Houston"; "Phoenix"].

Definition categories : list string :=
  ["Electronics"; "Clothing"; "Books"; "Food"; "Toys"].

(** The draws of [Math.random] are inputs of the generation: [r i] is the
    integer that [Math.floor (Math.random () * n)] is taken from, reduced to
    the range by [mod n]. *)
Definition mock_users (r_age r_city : nat -> nat) : list User.t :=
  map (fun i =>
         User.make (Z.of_nat (i + 1))
           ("User" ++ JS.show (i + 1))
           ("user" ++ JS.show (i + 1) ++ "@example.com")
           (Z.of_nat (r_age i mod 50) + 18)
           (nth (r_city i mod 5) cities ""))
      (seq 0 100).

Definition mock_products (r_price r_category r_stock : nat -> nat)
  : list Product.t :=
  map (fun i =>
         Product.make (Z.of_nat (i + 1))
           ("Product " ++ JS.show (i + 1))
           (Z.of_nat (r_price i mod 1000) + 10)
           (nth (r_category i mod 5) categories "")
           (Z.of_nat (r_stock i mod 100)))
      (seq 0 50).

(** ** The store and the monad of the handlers *)

(** The two module-level arrays, and the arrays a request allocates and
    then updates in place (the copy made by [[...products]]). *)
Record world : Type := World
  { users : list User.t;
    products : list Product.t;
    fresh : list (list Product.t) }.

(** A reference to an array of products. *)
Inductive ref : Type :=
| Products
| Fresh (n : nat).

Inductive outcome (A : Type) : Type :=
| Val (a : A)
| Throw.
Arguments Val {A} a.
Arguments Throw {A}.

Definition M (A : Type) : Type := world -> outcome A * world.

Definition ret {A} (a : A) : M A := fun w => (Val a, w).

Definition throw {A} : M A := fun w => (Throw, w).

Definition bind {A B} (m : M A) (k : A -> M B) : M B :=
  fun w =>
    match m w with
    | (Val a, w') => k a w'
    | (Throw, w') => (Throw, w')
    end.

Notation "x <- m ;; k" := (bind m (fun x => k))
  (at level 61, m at next level, right associativity).

Definition read_users : M (list User.t) := fun w => (Val (users w), w).

Definition read (r : ref) : M (list Product.t) :=
  fun w =>
    match r with
    | Products => (Val (products w), w)
    | Fresh n =>
        match nth_error (fresh w) n with
        | Some l => (Val l, w)
        | None => (Throw, w)
        end
    end.

Fixpoint set_nth {A} (n : nat) (a : A) (l : list A) : list A :=
  match l, n with
  | [], _ => []
  | _ :: l', O => a :: l'
  | b :: l', S n' => b :: set_nth n' a l'
  end.

Definition write (r : ref) (l : list Product.t) : M unit :=
  fun w =>
    match r with
    | Products => (Val tt, World (users w) l (fresh w))
    | Fresh n => (Val tt, World (users w) (products w) (set_nth n l (fresh w)))
    end.

(** [[...array]]: a new array with the same elements. *)
Definition spread (r : ref) : M ref :=
  l <- read r ;;
  fun w =>
    (Val (Fresh (List.length (fresh w))),
     World (users w) (products w) (fresh w ++ [l])).

(** [array.sort(compare)]: sorts the array in place and returns it. *)
Definition sort_in_place (r : ref)
    (compare : Product.t -> Product.t -> option Z) : M ref :=
  l <- read r ;;
  match JS.sort compare l with
  | Some s => _ <- write r s ;; ret r
  | None => throw
  end.

(** ** The pagination helper *)

Module Link.
(** The [next] and [previous] fields: [{ page, limit }]. *)
Record t : Type := make { page : JS.number; limit : JS.number }.
End Link.

Module Page.
(** The object that [paginate] builds; an absent field is [None]. *)
Record t (A : Type) : Type := make
  { total : Z;
    totalPages : JS.number;
    currentPage : JS.number;
    limit : JS.number;
    next : option Link.t;
    previous : option Link.t;
    data : list A }.
Arguments make {A}.
Arguments total {A}.
Arguments totalPages {A}.
Arguments currentPage {A}.
Arguments limit {A}.
Arguments next {A}.
Arguments previous {A}.
Arguments data {A}.
End Page.

Definition paginate {A} (array : list A) (page limit : JS.number)
  : Page.t A :=
  let startIndex := JS.mul (JS.sub page (JS.Num 1)) limit in
  let endIndex := JS.mul page limit in
  Page.make
    (JS.length array)
    (JS.ceil_div (JS.length array) limit)
    page
    limit
    (if JS.lt endIndex (JS.Num (JS.length array))
     then Some (Link.make (JS.add page (JS.Num 1)) limit) else None)
    (if JS.gt startIndex (JS.Num 0)
     then Some (Link.make (JS.sub page (JS.Num 1)) limit) else None)
    (JS.slice array startIndex endIndex).

(** ** Requests and responses *)

Module Query.
(** [req.query]: the parameters the handlers read, each absent or text. *)
Record t : Type := make
  { page : option string;
    limit : option string;
    q : option string;
    category : option string;
    minPrice : option string;
    maxPrice : option string;
    sortBy : option string;
    order : option string;
    cursor : option string }.

Definition empty : t :=
  make None None None None None None None None None.
End Query.

Inductive body : Type :=
| UsersPage (result : Page.t User.t)
| ProductsPage (result : Page.t Product.t)
| SearchPage (result : Page.t User.t) (searchTerm : string)
| FilterPage (result : Page.t Product.t)
    (category : option string) (minPrice : JS.number) (maxPrice : JS.number)
| SortedPage (result : Page.t Product.t) (sortBy order : string)
| CursorPage (data : list User.t) (nextCursor : option Z) (hasMore : bool)
| Error (error : string).

(** What the client receives: [res.status(s).json(b)], or the failure
    reported when the handler throws. *)
Inductive response : Type :=
| Json (status : Z) (b : body)
| Uncaught.

Inductive endpoint : Type :=
| ApiUsers
| ApiProducts
| ApiUsersSearch
| ApiProductsFilter
| ApiProductsSorted
| ApiUsersCursor.

(** ** The query operations, as the handlers compute them *)

Definition page_of (q : Query.t) : JS.number :=
  JS.or_default (JS.parseInt (Query.page q)) (JS.Num 1).

Definition limit_of (q : Query.t) : JS.number :=
  JS.or_default (JS.parseInt (Query.limit q)) (JS.Num 10).

Definition minPrice_of (q : Query.t) : JS.number :=
  JS.or_default (JS.parseInt (Query.minPrice q)) (JS.Num 0).

Definition maxPrice_of (q : Query.t) : JS.number :=
  JS.or_infinity (JS.parseInt (Query.maxPrice q)).

Definition cursor_of (q : Query.t) : JS.number :=
  JS.or_default (JS.parseInt (Query.cursor q)) (JS.Num 0).

(** The validation of [/api/users] and [/api/products]. *)
Definition validate (page limit : JS.number) : option response :=
  if JS.lt page (JS.Num 1) || JS.lt limit (JS.Num 1)
  then Some (Json 400 (Error "Page and limit must be positive numbers"))
  else if JS.gt limit (JS.Num 50)
  then Some (Json 400 (Error "Limit cannot exceed 50"))
  else None.

(** The filter of [/api/products/filter] on the price. *)
Definition in_price_range (minPrice maxPrice : JS.number)
    (product : Product.t) : bool :=
  JS.ge (JS.Num (Product.price product)) minPrice
  && JS.le (JS.Num (Product.price product)) maxPrice.

(** [/api/users/cursor], after the parameters are read. *)
Definition cursor_paginate (us : list User.t) (cursor limit : JS.number)
  : body :=
  let filteredUsers :=
    filter (fun user => JS.gt (JS.Num (User.id user)) cursor) us in
  let paginatedUsers := JS.slice filteredUsers (JS.Num 0) limit in
  let hasMore := JS.gt (JS.Num (JS.length filteredUsers)) limit in
  let nextCursor :=
    if 0 <? JS.length paginatedUsers
    then option_map User.id
           (nth_error paginatedUsers (List.length paginatedUsers - 1))
    else None in
  CursorPage paginatedUsers (if hasMore then nextCursor else None) hasMore.

(** ** The comparator of [/api/products/sorted] *)

(** A property value: a number, a string, or anything else (a missing
    property is [undefined]; an inherited one is no string either). *)
Inductive value : Type :=
| VNum (z : Z)
| VStr (s : string)
| VOther.

(** [product[key]]. *)
Definition get (product : Product.t) (key : string) : value :=
  if String.eqb key "id" then VNum (Product.id product)
  else if String.eqb key "name" then VStr (Product.name product)
  else if String.eqb key "price" then VNum (Product.price product)
  else if String.eqb key "category" then VStr (Product.category product)
  else if String.eqb key "stock" then VNum (Product.stock product)
  else VOther.

Section Engine.

(** The engine's [toLowerCase] outside ASCII. *)
Context {rt : JS.Runtime}.

(** [String.prototype.localeCompare], supplied by the runtime. *)
Variable localeCompare : string -> string -> Z.

(** The callback of [users.filter] in [/api/users/search]. *)
Definition matches (searchTerm : string) (user : User.t) : bool :=
  JS.includes (JS.toLowerCase (User.name user)) (JS.toLowerCase searchTerm)
  || JS.includes (JS.toLowerCase (User.email user)) (JS.toLowerCase searchTerm)
  || JS.includes (JS.toLowerCase (User.city user)) (JS.toLowerCase searchTerm).

Definition search_filter (searchTerm : string) (us : list User.t)
  : list User.t :=
  filter (matches searchTerm) us.

(** The filter of [/api/products/filter] on the category. *)
Definition same_category (category : string) (p : Product.t) : bool :=
  String.eqb (JS.toLowerCase (Product.category p)) (JS.toLowerCase category).

Definition attribute_filter (category : option string)
    (minPrice maxPrice : JS.number) (ps : list Product.t)
  : list Product.t :=
  let filteredProducts := filter (in_price_range minPrice maxPrice) ps in
  if JS.truthy category
  then
    match category with
    | Some c => filter (same_category c) filteredProducts
    | None => filteredProducts
    end
  else filteredProducts.

(** The arrow function passed to [sort]; [None] is the [TypeError] of
    calling [localeCompare] on a value that has none. *)
Definition compare_products (sortBy order : string) (a b : Product.t)
  : option Z :=
  let comparison :=
    if String.eqb sortBy "price" || String.eqb sortBy "id"
       || String.eqb sortBy "stock"
    then
      match get a sortBy, get b sortBy with
      | VNum x, VNum y => Some (x - y)
      | _, _ => None
      end
    else
      match get a sortBy, get b sortBy with
      | VStr x, VStr y => Some (localeCompare x y)
      | _, _ => None
      end in
  if String.eqb order "desc" then option_map Z.opp comparison else comparison.

(** What [[...products].sort (...)] evaluates to on the array [ps];
    [None] when the comparator throws. *)
Definition sort_products (sortBy order : string) (ps : list Product.t)
  : option (list Product.t) :=
  JS.sort (compare_products sortBy order) ps.

(** ** The six handlers *)

Definition get_users (q : Query.t) : M response :=
  let page := page_of q in
  let limit := limit_of q in
  match validate page limit with
  | Some rejection => ret rejection
  | None =>
      array <- read_users ;;
      ret (Json 200 (UsersPage (paginate array page limit)))
  end.

Definition get_products (q : Query.t) : M response :=
  let page := page_of q in
  let limit := limit_of q in
  match validate page limit with
  | Some rejection => ret rejection
  | None =>
      array <- read Products ;;
      ret (Json 200 (ProductsPage (paginate array page limit)))
  end.

Definition get_users_search (q : Query.t) : M response :=
  let page := page_of q in
  let limit := limit_of q in
  let searchTerm := JS.or_string (Query.q q) "" in
  array <- read_users ;;
  let filteredUsers := search_filter searchTerm array in
  ret (Json 200 (SearchPage (paginate filteredUsers page limit) searchTerm)).

Definition get_products_filter (q : Query.t) : M response :=
  let page := page_of q in
  let limit := limit_of q in
  let category := Query.category q in
  let minPrice := minPrice_of q in
  let maxPrice := maxPrice_of q in
  array <- read Products ;;
  let filteredProducts := attribute_filter category minPrice maxPrice array in
  ret (Json 200 (FilterPage (paginate filteredProducts page limit)
                   category minPrice maxPrice)).

Definition get_products_sorted (q : Query.t) : M response :=
  let page := page_of q in
  let limit := limit_of q in
  let sortBy := JS.or_string (Query.sortBy q) "id" in
  let order := JS.or_string (Query.order q) "asc" in
  copy <- spread Products ;;
  sorted <- sort_in_place copy (compare_products sortBy order) ;;
  sortedProducts <- read sorted ;;
  ret (Json 200 (SortedPage (paginate sortedProducts page limit)
                   sortBy order)).

Definition get_users_cursor (q : Query.t) : M response :=
  let limit := limit_of q in
  let cursor := cursor_of q in
  array <- read_users ;;
  ret (Json 200 (cursor_paginate array cursor limit)).

Definition handler (e : endpoint) : Query.t -> M response :=
  match e with
  | ApiUsers => get_users
  | ApiProducts => get_products
  | ApiUsersSearch => get_users_search
  | ApiProductsFilter => get_products_filter
  | ApiProductsSorted => get_products_sorted
  | ApiUsersCursor => get_users_cursor
  end.

(** One request: the response sent, and the store afterwards. *)
Definition serve (e : endpoint) (q : Query.t) (w : world)
  : response * world :=
  match handler e q w with
  | (Val r, w') => (r, w')
  | (Throw, w') => (Uncaught, w')
  end.

End Engine.

(** ** Vocabulary of the statements *)

(** The string of the given bytes. *)
Definition text (bytes : list nat) : string :=
  fold_right (fun n s => String (ascii_of_nat n) s) EmptyString bytes.

(** Text outside ASCII, in UTF-8: the Kelvin sign U+212A; the Greek capital
    sigma U+03A3 and small sigma U+03C3; the word of the capitals omicron,
    delta, omicron, sigma (U+039F U+0394 U+039F U+03A3), and its lower-case
    form, which ends in the final small sigma U+03C2 (U+03BF U+03B4 U+03BF
    U+03C2). *)
Definition kelvin_sign : string := text [226; 132; 170]%nat.

Definition capital_sigma : string := text [206; 163]%nat.

Definition small_sigma : string := text [207; 131]%nat.

Definition capital_word : string :=
  text [206; 159; 206; 148; 206; 159; 206; 163]%nat.

Definition small_word : string :=
  text [206; 191; 206; 180; 206; 191; 207; 130]%nat.

(** The engine of the examples.  It lowers these strings as the Unicode
    case mapping does: the Kelvin sign to [k], the capital sigma to the
    small sigma, and the capital word to the small word, where the sigma
    that ends the word becomes the final sigma.  The other strings outside
    ASCII it leaves as they are; the examples hold none. *)
Definition example_runtime : JS.Runtime.
Proof.
  refine {| JS.lowerUnicode := fun s =>
              if String.eqb s kelvin_sign then "k"
              else if String.eqb s capital_word then small_word
              else if String.eqb s capital_sigma then small_sigma
              else s |}.
  - intros s H.
    destruct (String.eqb s kelvin_sign) eqn:E0; [reflexivity|].
    destruct (String.eqb s capital_word) eqn:E1; [reflexivity|].
    destruct (String.eqb s capital_sigma) eqn:E2; [reflexivity|].
    unfold JS.lower_with. rewrite H, E0, E1, E2. reflexivity.
  - intros s H.
    destruct (String.eqb s kelvin_sign); [discriminate|].
    destruct (String.eqb s capital_word); [discriminate|].
    destruct (String.eqb s capital_sigma); [discriminate|].
    intros E. rewrite E in H. discriminate H.
Defined.

(** The order between an integer and a number, [NaN] being in no order:
    [k <= n], [n <= k], [k < n] and [n < k]. *)
Definition at_least (k : Z) (n : JS.number) : Prop :=
  match n with
  | JS.Num z => k <= z
  | JS.Infinity => True
  | _ => False
  end.

Definition at_most (k : Z) (n : JS.number) : Prop :=
  match n with
  | JS.Num z => z <= k
  | JS.NegInfinity => True
  | _ => False
  end.

Definition more_than (k : Z) (n : JS.number) : Prop := at_least (k + 1) n.

Definition less_than (k : Z) (n : JS.number) : Prop := at_most (k - 1) n.

(** The number [n] computed where exact arithmetic gives the integer [z]:
    [z] itself up to 2^53 in magnitude, and past 2^53 on the side of [z]
    otherwise. *)
Definition tracks (z : Z) (n : JS.number) : Prop :=
  (- 2 ^ 53 <= z <= 2 ^ 53 -> n = JS.Num z)
  /\ (2 ^ 53 < z -> at_least (2 ^ 53) n)
  /\ (z < - 2 ^ 53 -> at_most (- 2 ^ 53) n).

(** A list that can be an array: the language bounds the length of an
    array by 2^32 - 1. *)
Definition is_array {A} (l : list A) : Prop := JS.length l < 2 ^ 32.

(** An optional field of a response is present. *)
Definition present {A} (o : option A) : Prop := o <> None.

(** A request that carries [page] and [limit] only. *)
Definition page_limit (page limit : option string) : Query.t :=
  Query.make page limit None None None None None None None.

(** A request that carries [cursor] and [limit] only. *)
Definition cursor_limit (cursor limit : option string) : Query.t :=
  Query.make None limit None None None None None None cursor.

(** The two rejections of the validation. *)
Definition positive_error : response :=
  Json 400 (Error "Page and limit must be positive numbers").

Definition maximum_error : response :=
  Json 400 (Error "Limit cannot exceed 50").

(** Ids strictly increase along the collection. *)
Definition ascending (us : list User.t) : Prop :=
  StronglySorted (fun a b => User.id a < User.id b) us.

(** The users that come after a cursor. *)
Definition after (cursor : JS.number) (us : list User.t) : list User.t :=
  filter (fun user => JS.gt (JS.Num (User.id user)) cursor) us.

(** The store when the process starts. *)
Definition initial (r_age r_city r_price r_category r_stock : nat -> nat)
  : world :=
  World (mock_users r_age r_city)
        (mock_products r_price r_category r_stock) [].

(** [t] occurs in [s]: [s] is [t] between a prefix and a suffix. *)
Definition substring (t s : string) : Prop :=
  exists pre post, s = pre ++ t ++ post.

(** Two characters that are the same letter: equal, or an ASCII capital
    and its small letter, 32 further. *)
Definition capital_of (c d : ascii) : Prop :=
  (65 <= nat_of_ascii c <= 90)%nat
  /\ nat_of_ascii d = (nat_of_ascii c + 32)%nat.

Definition same_letter (c d : ascii) : Prop :=
  c = d \/ capital_of c d \/ capital_of d c.

(** Two strings that are the same letter by letter. *)
Fixpoint same_letters (a b : string) : Prop :=
  match a, b with
  | EmptyString, EmptyString => True
  | String c a', String d b' => same_letter c d /\ same_letters a' b'
  | _, _ => False
  end.

(** [term] is a case-insensitive substring of [s]: some part of [s] is
    [term] up to the case of the letters. *)
Definition occurs_ignoring_case (term s : string) : Prop :=
  exists pre mid post, s = pre ++ mid ++ post /\ same_letters mid term.

(** The fields that the search reads are ASCII. *)
Definition ascii_user (u : User.t) : Prop :=
  JS.all_ascii (User.name u) = true
  /\ JS.all_ascii (User.email u) = true
  /\ JS.all_ascii (User.city u) = true.

(** [l1] is [l2] with some elements left out, the others in place. *)
Inductive subsequence {A : Type} : list A -> list A -> Prop :=
| subsequence_nil : subsequence [] []
| subsequence_keep (x : A) (l1 l2 : list A) :
    subsequence l1 l2 -> subsequence (x :: l1) (x :: l2)
| subsequence_skip (x : A) (l1 l2 : list A) :
    subsequence l1 l2 -> subsequence l1 (x :: l2).

(** [price <= bound] for a bound that may be infinite. *)
Definition within (price : Z) (bound : JS.number) : Prop :=
  match bound with
  | JS.Num z => price <= z
  | JS.Infinity => True
  | JS.NegInfinity => False
  | JS.NaN => False
  end.

(** A request that carries the parameters of the product filter only. *)
Definition filter_query (category minPrice maxPrice : option string)
  : Query.t :=
  Query.make None None None category minPrice maxPrice None None None.

(** The sort reads as a function of the array when the comparator is
    total: [stable_sort cmp l] is what [JS.sort] leaves in the array (see
    [sort_total]). *)
Fixpoint stable_insert {A} (cmp : A -> A -> Z) (a : A) (l : list A) : list A :=
  match l with
  | [] => [a]
  | b :: l' => if 0 <? cmp a b then b :: stable_insert cmp a l' else a :: l
  end.

Fixpoint stable_sort {A} (cmp : A -> A -> Z) (l : list A) : list A :=
  match l with
  | [] => []
  | a :: l' => stable_insert cmp a (stable_sort cmp l')
  end.

(** A consistent comparator: the sign flips with the arguments, and
    "not after" is transitive. *)
Definition consistent {A} (cmp : A -> A -> Z) : Prop :=
  (forall a b, Z.sgn (cmp a b) = - Z.sgn (cmp b a))
  /\ (forall a b c, cmp a b <= 0 -> cmp b c <= 0 -> cmp a c <= 0).

(** [a] is not after [b]. *)
Definition not_after {A} (cmp : A -> A -> Z) (a b : A) : Prop := cmp a b <= 0.

(** The elements that tie with [x]. *)
Definition ties_with {A} (cmp : A -> A -> Z) (x y : A) : bool := cmp x y =? 0.

(** No two positions of the list tie. *)
Definition no_ties {A} (cmp : A -> A -> Z) (l : list A) : Prop :=
  ForallOrdPairs (fun a b => cmp a b <> 0) l.

(** The sort keys that the endpoint documents. *)
Definition supported (sortBy : string) : Prop :=
  sortBy = "id" \/ sortBy = "name" \/ sortBy = "price" \/ sortBy = "stock".

(** Ascending comparison of two products on a key: numeric difference on
    [id], [price] and [stock], [localeCompare] on [name]. *)
Definition key_compare (localeCompare : string -> string -> Z)
    (sortBy : string) (a b : Product.t) : Z :=
  if String.eqb sortBy "name"
  then localeCompare (Product.name a) (Product.name b)
  else if String.eqb sortBy "id" then Product.id a - Product.id b
  else if String.eqb sortBy "price" then Product.price a - Product.price b
  else if String.eqb sortBy "stock" then Product.stock a - Product.stock b
  else 0.

(** The comparison in the requested order: negated for ["desc"]. *)
Definition order_compare (localeCompare : string -> string -> Z)
    (sortBy order : string) (a b : Product.t) : Z :=
  if String.eqb order "desc"
  then - key_compare localeCompare sortBy a b
  else key_compare localeCompare sortBy a b.







(** The response is a success: status 200 and a body that is no error. *)
Definition succeeds (r : response) : Prop :=
  exists b, r = Json 200 b /\ forall message, b <> Error message.


(** The data of the pages 1 to [n], in order. *)
Definition all_pages {A} (sequence : list A) (limit : JS.number) (n : nat)
  : list (list A) :=
  map (fun p => Page.data (paginate sequence (JS.Num (Z.of_nat p)) limit))
      (seq 1 n).

(** The page that a response of an offset endpoint carries, if any. *)
Definition page_of_users (r : response) : option (Page.t User.t) :=
  match r with
  | Json 200 (UsersPage result) => Some result
  | Json 200 (SearchPage result _) => Some result
  | _ => None
  end.

Definition page_of_products (r : response) : option (Page.t Product.t) :=
  match r with
  | Json 200 (ProductsPage result) => Some result
  | Json 200 (FilterPage result _ _ _) => Some result
  | Json 200 (SortedPage result _ _) => Some result
  | _ => None
  end.

(** Text at which the digits of a numeral end: nothing, or a character
    that is neither a digit nor a letter. *)
Definition ends_numeral (rest : string) : Prop :=
  match rest with
  | EmptyString => True
  | String c _ => JS.digit_value c = None
  end.

(** The integer that a decimal numeral denotes, read from the left after
    the digits already read. *)
Fixpoint numeral_value (acc : Z) (d : Decimal.uint) : Z :=
  match d with
  | Decimal.Nil => acc
  | Decimal.D0 d => numeral_value (10 * acc) d
  | Decimal.D1 d => numeral_value (10 * acc + 1) d
  | Decimal.D2 d => numeral_value (10 * acc + 2) d
  | Decimal.D3 d => numeral_value (10 * acc + 3) d
  | Decimal.D4 d => numeral_value (10 * acc + 4) d
  | Decimal.D5 d => numeral_value (10 * acc + 5) d
  | Decimal.D6 d => numeral_value (10 * acc + 6) d
  | Decimal.D7 d => numeral_value (10 * acc + 7) d
  | Decimal.D8 d => numeral_value (10 * acc + 8) d
  | Decimal.D9 d => numeral_value (10 * acc + 9) d
  end.

(** A decimal numeral as the text of a parameter, followed by [rest]. *)
Definition numeral_text (d : Decimal.uint) (rest : string) : option string :=
  Some (NilEmpty.string_of_uint d ++ rest).

(** The properties that a product has. *)
Definition known_field (key : string) : Prop :=
  key = "id" \/ key = "name" \/ key = "price" \/ key = "category"
  \/ key = "stock".

(** Product ids strictly increase along the collection. *)
Definition ascending_ids (ps : list Product.t) : Prop :=
  StronglySorted (fun a b => Product.id a < Product.id b) ps.

Section RuntimeVocabulary.
Context {rt : JS.Runtime}.

(** Two strings that [toLowerCase] makes equal. *)
Definition same_ignoring_case (a b : string) : Prop :=
  JS.toLowerCase a = JS.toLowerCase b.

(** [shorter] occurs in [longer] after lowering both, as [includes] tests
    it. *)
Definition narrower (longer shorter : string) : Prop :=
  substring (JS.toLowerCase shorter) (JS.toLowerCase longer).

(** A sequence of requests served one after the other: the responses, and
    the store at the end. *)
Fixpoint run (localeCompare : string -> string -> Z)
    (requests : list (endpoint * Query.t)) (w : world)
  : list response * world :=
  match requests with
  | [] => ([], w)
  | (e, q) :: rest =>
      let (r, w') := serve localeCompare e q w in
      let (rs, w'') := run localeCompare rest w' in
      (r :: rs, w'')
  end.
End RuntimeVocabulary.

(** * Properties *)

(** ** Numbers *)

Lemma two_53 : 2 ^ 53 = 9007199254740992.
Proof. reflexivity. Qed.

Lemma two_32 : 2 ^ 32 = 4294967296.
Proof. reflexivity. Qed.

(** Up to 2^53 in magnitude an integer is a number. *)
Lemma round_exact (z : Z) :
  - 2 ^ 53 <= z <= 2 ^ 53 -> JS.round z = JS.Num z.
Proof.
  intros Hz. unfold JS.round.
  destruct (Z.ltb_spec (Z.abs z) (2 ^ 53)) as [_|Hbig]; [reflexivity|].
  assert (Z.abs z = 2 ^ 53) as Ea by lia. rewrite Ea.
  change (Z.log2 (2 ^ 53) - 52) with 1. cbv zeta.
  change (2 ^ 53 / 2 ^ 1) with (2 ^ 52). change (2 ^ 53 mod 2 ^ 1) with 0.
  change (2 ^ (1 - 1)) with 1. change (1 <? 0) with false.
  change (0 =? 1) with false. cbn [orb andb].
  change (2 ^ 52 * 2 ^ 1) with (2 ^ 53).
  destruct (Z.leb_spec (2 ^ 1024) (2 ^ 53)) as [H|_].
  - exfalso. revert H. apply Z.lt_nge. now apply Z.pow_lt_mono_r.
  - f_equal. destruct (Z.ltb_spec z 0); lia.
Qed.

(** What the rounding of a large integer keeps: at least 2^53. *)
Lemma rounded_magnitude (a : Z) :
  2 ^ 53 <= a ->
  let e := Z.log2 a - 52 in
  let q := a / 2 ^ e in
  let r := a mod 2 ^ e in
  let q' := if (2 ^ (e - 1) <? r) || ((r =? 2 ^ (e - 1)) && Z.odd q)
            then q + 1 else q in
  2 ^ 53 <= q' * 2 ^ e.
Proof.
  intros Ha e q r q'.
  assert (53 <= Z.log2 a) as Hlog by (apply Z.log2_le_pow2; lia).
  assert (1 <= e) as He by (unfold e; lia).
  assert (0 < 2 ^ e) as Hpos by (apply Z.pow_pos_nonneg; lia).
  assert (2 ^ 52 * 2 ^ e <= a) as Hlow.
  { rewrite <- Z.pow_add_r by lia. replace (52 + e) with (Z.log2 a)
      by (unfold e; lia).
    apply Z.log2_spec. lia. }
  assert (2 ^ 52 <= q) as Hq.
  { unfold q. apply Z.div_le_lower_bound; lia. }
  assert (q <= q') as Hq' by (unfold q'; destruct (_ || _); lia).
  assert (2 ^ 1 <= 2 ^ e) as H2 by (apply Z.pow_le_mono_r; lia).
  change (2 ^ 53) with (2 ^ 52 * 2 ^ 1).
  apply Z.mul_le_mono_nonneg; lia.
Qed.

Lemma round_large (z : Z) : 2 ^ 53 <= z -> at_least (2 ^ 53) (JS.round z).
Proof.
  intros Hz. unfold JS.round.
  rewrite (Z.abs_eq z) by lia.
  destruct (Z.ltb_spec z (2 ^ 53)); [lia|].
  pose proof (rounded_magnitude z Hz) as Hm. cbv zeta in *.
  match goal with
  | |- context [2 ^ 1024 <=? ?m] => destruct (Z.leb_spec (2 ^ 1024) m)
  end.
  - destruct (Z.ltb_spec z 0); [lia|exact I].
  - destruct (Z.ltb_spec z 0); [lia|]. exact Hm.
Qed.

Lemma round_large_negative (z : Z) :
  z <= - 2 ^ 53 -> at_most (- 2 ^ 53) (JS.round z).
Proof.
  intros Hz. unfold JS.round.
  rewrite (Z.abs_neq z) by lia.
  destruct (Z.ltb_spec (- z) (2 ^ 53)); [lia|].
  pose proof (rounded_magnitude (- z) ltac:(lia)) as Hm. cbv zeta in *.
  match goal with
  | |- context [2 ^ 1024 <=? ?m] => destruct (Z.leb_spec (2 ^ 1024) m)
  end.
  - destruct (Z.ltb_spec z 0); [exact I|lia].
  - destruct (Z.ltb_spec z 0); [|lia]. cbn [at_most]. lia.
Qed.

Lemma at_least_weaken (k k' : Z) (n : JS.number) :
  at_least k n -> k' <= k -> at_least k' n.
Proof. destruct n; simpl; intros; try tauto; lia. Qed.

Lemma at_most_weaken (k k' : Z) (n : JS.number) :
  at_most k n -> k <= k' -> at_most k' n.
Proof. destruct n; simpl; intros; try tauto; lia. Qed.

(** Rounding keeps an integer on its side of every bound within 2^53. *)
Lemma at_least_round (k z : Z) :
  - 2 ^ 53 <= k <= 2 ^ 53 -> k <= z -> at_least k (JS.round z).
Proof.
  intros Hk Hz. destruct (Z.le_gt_cases z (2 ^ 53)).
  - rewrite round_exact by lia. exact Hz.
  - apply (at_least_weaken (2 ^ 53)); [|lia].
    apply round_large. lia.
Qed.

Lemma at_most_round (k z : Z) :
  - 2 ^ 53 <= k <= 2 ^ 53 -> z <= k -> at_most k (JS.round z).
Proof.
  intros Hk Hz. destruct (Z.le_gt_cases (- 2 ^ 53) z).
  - rewrite round_exact by lia. exact Hz.
  - apply (at_most_weaken (- 2 ^ 53)); [|lia].
    apply round_large_negative. lia.
Qed.

(** Exact arithmetic on the integers that stay within 2^53. *)
Lemma add_exact (x y : Z) :
  - 2 ^ 53 <= x + y <= 2 ^ 53 -> JS.add (JS.Num x) (JS.Num y) = JS.Num (x + y).
Proof. apply round_exact. Qed.

Lemma sub_exact (x y : Z) :
  - 2 ^ 53 <= x - y <= 2 ^ 53 -> JS.sub (JS.Num x) (JS.Num y) = JS.Num (x - y).
Proof. intros H. unfold JS.sub. simpl. now rewrite round_exact by lia. Qed.

(** Comparisons and indices past a bound. *)
Lemma at_least_not_lt (k len : Z) (n : JS.number) :
  at_least k n -> len <= k -> JS.lt n (JS.Num len) = false.
Proof.
  destruct n as [z| | |]; simpl; try tauto. intros. apply Z.ltb_ge. lia.
Qed.

Lemma at_least_gt (k j : Z) (n : JS.number) :
  at_least k n -> j < k -> JS.gt n (JS.Num j) = true.
Proof.
  destruct n as [z| | |]; simpl; try tauto. intros. apply Z.ltb_lt. lia.
Qed.

Lemma at_least_clamp (k len : Z) (n : JS.number) :
  at_least k n -> 0 <= len <= k -> JS.clamp_index len n = len.
Proof.
  destruct n as [z| | |]; simpl; try tauto. intros Hz Hlen.
  destruct (Z.ltb_spec z 0); lia.
Qed.

(** The boolean tests against an integer are the orders of the
    statements. *)
Lemma lt_less_than (n : JS.number) (k : Z) :
  JS.lt n (JS.Num k) = true <-> less_than k n.
Proof.
  unfold less_than. destruct n as [z| | |]; simpl;
    rewrite ?Z.ltb_lt; split; intros; try lia; try tauto; discriminate.
Qed.

Lemma gt_more_than (n : JS.number) (k : Z) :
  JS.gt n (JS.Num k) = true <-> more_than k n.
Proof.
  unfold more_than. destruct n as [z| | |]; simpl;
    rewrite ?Z.ltb_lt; split; intros; try lia; try tauto; discriminate.
Qed.

Lemma lt_false_at_least (n : JS.number) (k : Z) :
  n <> JS.NaN -> (JS.lt n (JS.Num k) = false <-> at_least k n).
Proof.
  destruct n as [z| | |]; simpl; rewrite ?Z.ltb_ge;
    split; intros; try lia; try tauto; try discriminate; congruence.
Qed.

Lemma gt_false_at_most (n : JS.number) (k : Z) :
  n <> JS.NaN -> (JS.gt n (JS.Num k) = false <-> at_most k n).
Proof.
  destruct n as [z| | |]; simpl; rewrite ?Z.ltb_ge;
    split; intros; try lia; try tauto; try discriminate; congruence.
Qed.

(** A default replaces [NaN]: the parameters are never [NaN]. *)
Lemma or_default_not_nan (n d : JS.number) :
  d <> JS.NaN -> JS.or_default n d <> JS.NaN.
Proof.
  intros Hd. destruct n as [z| | |]; simpl; try discriminate; try exact Hd.
  destruct (z =? 0); [exact Hd|discriminate].
Qed.

(** ** Indices computed with rounding *)

Lemma round_tracks (z : Z) : tracks z (JS.round z).
Proof.
  split; [|split]; intros H.
  - now apply round_exact.
  - apply round_large. lia.
  - apply round_large_negative. lia.
Qed.

Lemma sub_tracks (p : Z) : tracks (p - 1) (JS.sub (JS.Num p) (JS.Num 1)).
Proof. apply round_tracks. Qed.

Lemma mul_tracks (a l : Z) (n : JS.number) :
  tracks a n -> l <> 0 -> tracks (a * l) (JS.mul n (JS.Num l)).
Proof.
  intros (Hexact & Hlarge & Hsmall) Hl.
  destruct (Z.lt_ge_cases (2 ^ 53) a) as [Hbig|Hle].
  - specialize (Hlarge Hbig). clear Hexact Hsmall.
    destruct n as [z| | |]; cbn [at_least] in Hlarge; try contradiction.
    + cbn [JS.mul]. pose proof (round_tracks (z * l)) as (He & Hl' & Hs).
      rewrite two_53 in *.
      destruct (Z.lt_ge_cases 0 l) as [Hpos|Hneg].
      * assert (a <= a * l) by nia. assert (z <= z * l) by nia.
        split; [|split]; intros Hcase; try lia.
        apply round_large. lia.
      * assert (a * l <= - a) by nia. assert (z * l <= - z) by nia.
        split; [|split]; intros Hcase; try lia.
        apply round_large_negative. lia.
    + cbn [JS.mul]. destruct (Z.eqb_spec l 0) as [?|_]; [contradiction|].
      rewrite two_53 in *.
      destruct (Z.ltb_spec 0 l); split; [|split| |split]; intros Hcase;
        try exact I; exfalso; nia.
  - destruct (Z.lt_ge_cases a (- 2 ^ 53)) as [Hneg|Hge].
    + specialize (Hsmall Hneg). clear Hexact Hlarge.
      destruct n as [z| | |]; cbn [at_most] in Hsmall; try contradiction.
      * cbn [JS.mul]. rewrite two_53 in *.
        destruct (Z.lt_ge_cases 0 l) as [Hpos|Hneg'].
        -- assert (a * l <= a) by nia. assert (z * l <= z) by nia.
           split; [|split]; intros Hcase; try lia.
           apply round_large_negative. lia.
        -- assert (- a <= a * l) by nia. assert (- z <= z * l) by nia.
           split; [|split]; intros Hcase; try lia.
           apply round_large. lia.
      * cbn [JS.mul]. destruct (Z.eqb_spec l 0) as [?|_]; [contradiction|].
        rewrite two_53 in *.
        destruct (Z.ltb_spec 0 l); split; [|split| |split]; intros Hcase;
          try exact I; exfalso; nia.
    + rewrite (Hexact (conj Hge Hle)). apply round_tracks.
Qed.

(** As an index into an array, a number is the integer it tracks. *)
Lemma clamp_tracks (len z : Z) (n : JS.number) :
  tracks z n -> 0 <= len <= 2 ^ 53 ->
  JS.clamp_index len n = JS.clamp_index len (JS.Num z).
Proof.
  intros (Hexact & Hlarge & Hsmall) Hlen.
  destruct (Z.lt_ge_cases (2 ^ 53) z) as [Hbig|Hle].
  - specialize (Hlarge Hbig).
    rewrite (at_least_clamp (2 ^ 53)) by (assumption || lia).
    cbn [JS.clamp_index]. destruct (Z.ltb_spec z 0); lia.
  - destruct (Z.lt_ge_cases z (- 2 ^ 53)) as [Hneg|Hge].
    + specialize (Hsmall Hneg). cbn [JS.clamp_index].
      destruct (Z.ltb_spec z 0); [|rewrite two_53 in *; lia].
      destruct n as [y| | |]; cbn [at_most] in Hsmall; try contradiction.
      * cbn [JS.clamp_index]. destruct (Z.ltb_spec y 0); lia.
      * cbn [JS.clamp_index]. lia.
    + now rewrite (Hexact (conj Hge Hle)).
Qed.

Lemma slice_tracks {A} (l : list A) (a b : Z) (n m : JS.number) :
  is_array l -> tracks a n -> tracks b m ->
  JS.slice l n m = JS.slice l (JS.Num a) (JS.Num b).
Proof.
  intros Hl Ha Hb. unfold JS.slice. unfold is_array in Hl.
  assert (0 <= JS.length l <= 2 ^ 53) as Hlen.
  { unfold JS.length in *. rewrite two_53, two_32 in *. lia. }
  now rewrite (clamp_tracks _ a n), (clamp_tracks _ b m).
Qed.

Lemma lt_tracks (z k : Z) (n : JS.number) :
  tracks z n -> - 2 ^ 53 < k <= 2 ^ 53 -> JS.lt n (JS.Num k) = (z <? k).
Proof.
  intros (Hexact & Hlarge & Hsmall) Hk.
  destruct (Z.lt_ge_cases (2 ^ 53) z) as [Hbig|Hle].
  - rewrite (at_least_not_lt (2 ^ 53)) by (auto; lia).
    symmetry. apply Z.ltb_ge. lia.
  - destruct (Z.lt_ge_cases z (- 2 ^ 53)) as [Hneg|Hge].
    + specialize (Hsmall Hneg).
      destruct n as [y| | |]; cbn [at_most] in Hsmall; try contradiction;
        cbn [JS.lt].
      * destruct (Z.ltb_spec y k), (Z.ltb_spec z k); try reflexivity; lia.
      * symmetry. apply Z.ltb_lt. lia.
    + now rewrite (Hexact (conj Hge Hle)).
Qed.

Lemma gt_tracks (z k : Z) (n : JS.number) :
  tracks z n -> - 2 ^ 53 <= k < 2 ^ 53 -> JS.gt n (JS.Num k) = (k <? z).
Proof.
  intros (Hexact & Hlarge & Hsmall) Hk.
  destruct (Z.lt_ge_cases (2 ^ 53) z) as [Hbig|Hle].
  - rewrite (at_least_gt (2 ^ 53) k) by (auto; lia).
    symmetry. apply Z.ltb_lt. lia.
  - destruct (Z.lt_ge_cases z (- 2 ^ 53)) as [Hneg|Hge].
    + specialize (Hsmall Hneg).
      destruct n as [y| | |]; cbn [at_most] in Hsmall; try contradiction;
        unfold JS.gt; cbn [JS.lt].
      * destruct (Z.ltb_spec k y), (Z.ltb_spec k z); try reflexivity; lia.
      * symmetry. apply Z.ltb_ge. lia.
    + now rewrite (Hexact (conj Hge Hle)).
Qed.

(** ** Slicing *)

Lemma firstn_beyond {A} (n m : nat) (l : list A) :
  (List.length l <= n)%nat -> (List.length l <= m)%nat ->
  firstn n l = firstn m l.
Proof.
  intros Hn Hm. now rewrite !firstn_all2.
Qed.

(** For indices [0 <= start <= stop], [slice] is the usual sub-sequence. *)
Lemma slice_range {A} (l : list A) (start stop : Z) :
  0 <= start <= stop ->
  JS.slice l (JS.Num start) (JS.Num stop) =
  firstn (Z.to_nat (stop - start)) (skipn (Z.to_nat start) l).
Proof.
  intros H. unfold JS.slice, JS.clamp_index, JS.length.
  destruct (Z.ltb_spec start 0) as [?|_]; [lia|].
  destruct (Z.ltb_spec stop 0) as [?|_]; [lia|].
  set (len := Z.of_nat (List.length l)).
  destruct (Z.le_gt_cases len start) as [Hout|Hin].
  - rewrite Z.min_r by lia.
    rewrite !(skipn_all2 l) by lia. now rewrite !firstn_nil.
  - rewrite (Z.min_l start) by lia.
    destruct (Z.le_gt_cases stop len).
    + rewrite Z.min_l by lia. f_equal. lia.
    + rewrite Z.min_r by lia.
      apply firstn_beyond; rewrite length_skipn; lia.
Qed.

Lemma slice_length {A} (l : list A) (start stop : Z) :
  0 <= start <= stop ->
  JS.length (JS.slice l (JS.Num start) (JS.Num stop)) =
  Z.min (stop - start) (Z.max 0 (JS.length l - start)).
Proof.
  intros H. rewrite slice_range by assumption.
  unfold JS.length. rewrite length_firstn, length_skipn. lia.
Qed.

(** [slice (0, limit)] for a positive [limit] takes the first [limit]. *)
Lemma slice_prefix {A} (l : list A) (limit : Z) :
  0 <= limit ->
  JS.slice l (JS.Num 0) (JS.Num limit) = firstn (Z.to_nat limit) l.
Proof.
  intros H. rewrite slice_range by lia. simpl. f_equal. lia.
Qed.

(** [slice (0, Infinity)] is the whole array. *)
Lemma slice_all {A} (l : list A) (limit : JS.number) :
  at_least (JS.length l) limit -> JS.slice l (JS.Num 0) limit = l.
Proof.
  intros H. unfold JS.slice.
  rewrite (at_least_clamp (JS.length l) _ limit H)
    by (unfold JS.length; lia).
  cbn [JS.clamp_index]. change (0 <? 0) with false. cbv iota.
  rewrite Z.min_l by (unfold JS.length; lia).
  rewrite Z.sub_0_r, Z.max_l by (unfold JS.length; lia).
  unfold JS.length. rewrite Nat2Z.id. apply firstn_all.
Qed.

(** ** Offset pagination *)

(** [ceil_div] is the ceiling of the quotient: the least [n] with
    [total <= n * limit]. *)
Lemma ceil_div_spec (total limit : Z) :
  0 < limit ->
  exists n, JS.ceil_div total (JS.Num limit) = JS.Num n
            /\ (n - 1) * limit < total <= n * limit.
Proof.
  intros Hl. unfold JS.ceil_div.
  destruct (Z.eqb_spec limit 0) as [?|_]; [lia|].
  eexists; split; [reflexivity|].
  pose proof (Z.mul_div_le (- total) limit Hl).
  pose proof (Z.mul_succ_div_gt (- total) limit Hl).
  nia.
Qed.

(** On an array, the indices and the two tests of [paginate] are those of
    exact arithmetic: rounding moves an index only where it is past the
    end of every array. *)
Lemma paginate_exact {A} (sequence : list A) (page limit : Z) :
  is_array sequence -> limit <> 0 ->
  paginate sequence (JS.Num page) (JS.Num limit) =
  Page.make (JS.length sequence)
    (JS.ceil_div (JS.length sequence) (JS.Num limit))
    (JS.Num page) (JS.Num limit)
    (if page * limit <? JS.length sequence
     then Some (Link.make (JS.add (JS.Num page) (JS.Num 1)) (JS.Num limit))
     else None)
    (if 0 <? (page - 1) * limit
     then Some (Link.make (JS.sub (JS.Num page) (JS.Num 1)) (JS.Num limit))
     else None)
    (JS.slice sequence (JS.Num ((page - 1) * limit))
       (JS.Num (page * limit))).
Proof.
  intros Harray Hl. unfold paginate.
  assert (tracks (page * limit) (JS.mul (JS.Num page) (JS.Num limit)))
    as Hend by apply round_tracks.
  assert (tracks ((page - 1) * limit)
            (JS.mul (JS.sub (JS.Num page) (JS.Num 1)) (JS.Num limit)))
    as Hstart by (apply mul_tracks; [apply sub_tracks|exact Hl]).
  assert (- 2 ^ 53 < JS.length sequence <= 2 ^ 53) as Hlen.
  { unfold is_array, JS.length in *. rewrite two_53, two_32 in *. lia. }
  rewrite (lt_tracks _ _ _ Hend Hlen).
  rewrite (gt_tracks _ 0 _ Hstart) by (rewrite two_53; lia).
  now rewrite (slice_tracks sequence _ _ _ _ Harray Hstart Hend).
Qed.

(** C1. For every sequence, every [page >= 1] and every [limit] in [1,50],
    [paginate] returns [total] = the length of the sequence, [totalPages] =
    the ceiling of [total / limit], [currentPage] = [page], the limit
    echoed, [data] = the sub-sequence from [(page-1)*limit] to [page*limit],
    of length [min (limit, max (0, total - (page-1)*limit))], [next] present
    exactly when [page*limit < total], that is when [page < totalPages], and
    [previous] present exactly when [(page-1)*limit > 0], that is when
    [page > 1]; when present they are [{page+1, limit}] and
    [{page-1, limit}], the latter as the number that [page - 1] is, which
    is the integer [page-1] up to [page = 2^53].  The sequence is an array:
    its length is below 2^32. *)
Theorem paginate_envelope {A} (sequence : list A) (page limit : Z) :
  is_array sequence -> 1 <= page -> 1 <= limit <= 50 ->
  let result := paginate sequence (JS.Num page) (JS.Num limit) in
  let total := Z.of_nat (List.length sequence) in
  Page.total result = total
  /\ (exists n, Page.totalPages result = JS.Num n
                /\ (n - 1) * limit < total <= n * limit
                /\ (present (Page.next result) <-> page < n))
  /\ Page.currentPage result = JS.Num page
  /\ Page.limit result = JS.Num limit
  /\ Page.data result =
       firstn (Z.to_nat (page * limit - (page - 1) * limit))
         (skipn (Z.to_nat ((page - 1) * limit)) sequence)
  /\ Z.of_nat (List.length (Page.data result)) =
       Z.min limit (Z.max 0 (total - (page - 1) * limit))
  /\ (present (Page.next result) <-> page * limit < total)
  /\ (present (Page.next result) ->
      Page.next result = Some (Link.make (JS.Num (page + 1)) (JS.Num limit)))
  /\ (present (Page.previous result) <-> (page - 1) * limit > 0)
  /\ (present (Page.previous result) <-> page > 1)
  /\ (present (Page.previous result) ->
      Page.previous result =
      Some (Link.make (JS.sub (JS.Num page) (JS.Num 1)) (JS.Num limit)))
  /\ (page <= 2 ^ 53 ->
      JS.sub (JS.Num page) (JS.Num 1) = JS.Num (page - 1)).
Proof.
  intros Harray Hp Hl result total.
  assert (Hresult : result = _)
    by (apply (paginate_exact sequence page limit Harray); lia).
  assert (Hnext : present (Page.next result) <-> page * limit < total).
  { rewrite Hresult. unfold present, JS.length; cbn [Page.next]; fold total.
    destruct (Z.ltb_spec (page * limit) total); split;
      intros; try discriminate; try lia; congruence. }
  assert (Hprev : present (Page.previous result) <-> (page - 1) * limit > 0).
  { rewrite Hresult. unfold present; cbn [Page.previous].
    destruct (Z.ltb_spec 0 ((page - 1) * limit)); split;
      intros; try discriminate; try lia; congruence. }
  assert (Hdata : Page.data result =
            firstn (Z.to_nat (page * limit - (page - 1) * limit))
              (skipn (Z.to_nat ((page - 1) * limit)) sequence)).
  { rewrite Hresult. cbn [Page.data]. apply slice_range. nia. }
  assert (Hlen : Z.of_nat (List.length (Page.data result)) =
            Z.min limit (Z.max 0 (total - (page - 1) * limit))).
  { rewrite Hresult. cbn [Page.data].
    pose proof (slice_length sequence ((page - 1) * limit) (page * limit)) as E.
    unfold JS.length in E. rewrite E by nia. fold total. f_equal. lia. }
  assert (Hpages : exists n, Page.totalPages result = JS.Num n
            /\ (n - 1) * limit < total <= n * limit
            /\ (present (Page.next result) <-> page < n)).
  { destruct (ceil_div_spec total limit) as (n & Hn & Hlo & Hhi); [lia|].
    exists n. split; [exact Hn|]. split; [lia|].
    rewrite Hnext. nia. }
  assert (Hnext' : present (Page.next result) ->
            Page.next result =
            Some (Link.make (JS.Num (page + 1)) (JS.Num limit))).
  { intros Hpresent. apply Hnext in Hpresent.
    rewrite Hresult. cbn [Page.next]. unfold JS.length. fold total.
    destruct (Z.ltb_spec (page * limit) total); [|lia].
    rewrite add_exact; [reflexivity|].
    unfold is_array, JS.length in Harray. fold total in Harray.
    rewrite two_53, two_32 in *. nia. }
  assert (Hprev' : present (Page.previous result) ->
            Page.previous result =
            Some (Link.make (JS.sub (JS.Num page) (JS.Num 1))
                    (JS.Num limit))).
  { rewrite Hresult. unfold present; cbn [Page.previous].
    destruct (0 <? (page - 1) * limit); congruence. }
  assert (Hone : present (Page.previous result) <-> page > 1).
  { rewrite Hprev. nia. }
  split; [reflexivity|]. split; [exact Hpages|].
  split; [reflexivity|]. split; [reflexivity|].
  split; [exact Hdata|]. split; [exact Hlen|].
  split; [exact Hnext|]. split; [exact Hnext'|].
  split; [exact Hprev|]. split; [exact Hone|].
  split; [exact Hprev'|].
  intros Hsmall. apply sub_exact. lia.
Qed.

Lemma paginate_envelope_witness :
  let result := paginate [1; 2; 3; 4; 5; 6; 7] (JS.Num 2) (JS.Num 3) in
  Page.total result = 7
  /\ Page.data result = [4; 5; 6]
  /\ Page.next result = Some (Link.make (JS.Num 3) (JS.Num 3))
  /\ Page.previous result = Some (Link.make (JS.Num 1) (JS.Num 3)).
Proof.
  pose proof (paginate_envelope [1; 2; 3; 4; 5; 6; 7] 2 3
                ltac:(reflexivity) ltac:(lia) ltac:(lia)) as H.
  cbv zeta in H.
  destruct H as (Ht & _ & _ & _ & Hd & _ & Hn & Hn' & Hp & _ & Hp' & _).
  split; [exact Ht|]. split; [exact Hd|]. split.
  - apply Hn'. apply Hn. simpl. lia.
  - apply Hp'. apply Hp. lia.
Defined.

(** A page number too large for a double is [Infinity]: an empty page
    after all the others. *)
Lemma paginate_infinite_page {A} (sequence : list A) (limit : Z) :
  1 <= limit ->
  let result := paginate sequence JS.Infinity (JS.Num limit) in
  Page.data result = []
  /\ Page.next result = None
  /\ Page.previous result = Some (Link.make JS.Infinity (JS.Num limit)).
Proof.
  intros Hl. unfold paginate. cbn [JS.sub JS.add JS.neg JS.mul].
  destruct (Z.eqb_spec limit 0) as [?|_]; [lia|].
  destruct (Z.ltb_spec 0 limit) as [_|?]; [|lia].
  cbn [Page.data Page.next Page.previous JS.lt JS.gt].
  split; [|split; reflexivity].
  unfold JS.slice. cbn [JS.clamp_index].
  rewrite Z.sub_diag. reflexivity.
Qed.

(** ** The handlers that only read *)

Section ReadOnlyHandlers.
Context {rt : JS.Runtime}.
Variable localeCompare : string -> string -> Z.

Lemma serve_users (q : Query.t) (w : world) :
  serve localeCompare ApiUsers q w =
  (match validate (page_of q) (limit_of q) with
   | Some rejection => rejection
   | None => Json 200 (UsersPage (paginate (users w) (page_of q) (limit_of q)))
   end, w).
Proof.
  unfold serve, handler, get_users.
  destruct (validate (page_of q) (limit_of q)); reflexivity.
Qed.

Lemma serve_products (q : Query.t) (w : world) :
  serve localeCompare ApiProducts q w =
  (match validate (page_of q) (limit_of q) with
   | Some rejection => rejection
   | None =>
       Json 200 (ProductsPage (paginate (products w) (page_of q) (limit_of q)))
   end, w).
Proof.
  unfold serve, handler, get_products.
  destruct (validate (page_of q) (limit_of q)); reflexivity.
Qed.

Lemma serve_search (q : Query.t) (w : world) :
  serve localeCompare ApiUsersSearch q w =
  (Json 200
     (SearchPage
        (paginate (search_filter (JS.or_string (Query.q q) "") (users w))
           (page_of q) (limit_of q))
        (JS.or_string (Query.q q) "")), w).
Proof. reflexivity. Qed.

Lemma serve_filter (q : Query.t) (w : world) :
  serve localeCompare ApiProductsFilter q w =
  (Json 200
     (FilterPage
        (paginate
           (attribute_filter (Query.category q) (minPrice_of q)
              (maxPrice_of q) (products w))
           (page_of q) (limit_of q))
        (Query.category q) (minPrice_of q) (maxPrice_of q)), w).
Proof. reflexivity. Qed.

Lemma serve_cursor (q : Query.t) (w : world) :
  serve localeCompare ApiUsersCursor q w =
  (Json 200 (cursor_paginate (users w) (cursor_of q) (limit_of q)), w).
Proof. reflexivity. Qed.
End ReadOnlyHandlers.

(** ** Validation of [/api/users] and [/api/products] *)

Lemma validate_spec (page limit : JS.number) :
  validate page limit =
  if JS.lt page (JS.Num 1) || JS.lt limit (JS.Num 1) then Some positive_error
  else if JS.gt limit (JS.Num 50) then Some maximum_error else None.
Proof. reflexivity. Qed.

Lemma validate_not_positive (page limit : JS.number) :
  less_than 1 page \/ less_than 1 limit ->
  validate page limit = Some positive_error.
Proof.
  intros H. rewrite validate_spec.
  rewrite <- !lt_less_than in H.
  destruct H as [H|H]; rewrite H; [reflexivity|].
  now rewrite orb_true_r.
Qed.

Lemma at_least_not_less (k : Z) (n : JS.number) :
  at_least k n -> JS.lt n (JS.Num k) = false.
Proof. intros H. apply (at_least_not_lt k); [exact H|lia]. Qed.

Lemma validate_above_maximum (page limit : JS.number) :
  at_least 1 page -> more_than 50 limit ->
  validate page limit = Some maximum_error.
Proof.
  intros Hp Hl. rewrite validate_spec.
  rewrite (at_least_not_less 1 page Hp).
  rewrite (at_least_not_less 1 limit)
    by (apply (at_least_weaken 51); [exact Hl|lia]).
  apply gt_more_than in Hl. now rewrite Hl.
Qed.

Lemma validate_accepts (page limit : JS.number) :
  at_least 1 page -> at_least 1 limit -> at_most 50 limit ->
  validate page limit = None.
Proof.
  intros Hp Hl Hmax. rewrite validate_spec.
  rewrite (at_least_not_less 1 page Hp), (at_least_not_less 1 limit Hl).
  cbn [orb].
  destruct limit as [z| | |]; cbn [at_most at_least] in *; try contradiction.
  unfold JS.gt; cbn [JS.lt].
  destruct (Z.ltb_spec 50 z); [lia|reflexivity].
Qed.

(** A limit above 50 is always answered by one of the two errors, when the
    page is a number. *)
Lemma validate_rejects_large_limit (page limit : JS.number) :
  page <> JS.NaN -> more_than 50 limit ->
  validate page limit = Some positive_error
  \/ validate page limit = Some maximum_error.
Proof.
  intros Hnan Hl.
  destruct (JS.lt page (JS.Num 1)) eqn:E.
  - left. apply validate_not_positive. left. now apply lt_less_than.
  - right. apply validate_above_maximum; [|exact Hl].
    now apply lt_false_at_least.
Qed.

(** A page past the last one is served, empty and without [next]. *)
Lemma page_beyond_last {A} (array : list A) (page limit : Z) :
  is_array array -> 1 <= page -> 1 <= limit ->
  JS.length array <= (page - 1) * limit ->
  Page.data (paginate array (JS.Num page) (JS.Num limit)) = []
  /\ Page.next (paginate array (JS.Num page) (JS.Num limit)) = None.
Proof.
  intros Harray Hp Hl Hbeyond.
  rewrite paginate_exact by (assumption || lia).
  cbn [Page.data Page.next]. split.
  - rewrite slice_range by nia.
    rewrite skipn_all2; [apply firstn_nil|]. unfold JS.length in Hbeyond. lia.
  - destruct (Z.ltb_spec (page * limit) (JS.length array)); [nia|reflexivity].
Qed.

Section Boundaries.
Context {rt : JS.Runtime}.
Variable localeCompare : string -> string -> Z.

(** C2, as the code behaves.  [page=0] and [limit=0] are not rejected on
    [/api/users] and [/api/products]: [parseInt ("0") || d] has already
    replaced the zero by the default when the test [page < 1 || limit < 1]
    runs, so the request is served as page 1, respectively with limit 10. *)
Theorem zero_page_or_limit_is_served (w : world) :
  fst (serve localeCompare ApiUsers (page_limit (Some "0") (Some "10")) w)
  = Json 200 (UsersPage (paginate (users w) (JS.Num 1) (JS.Num 10)))
  /\ fst (serve localeCompare ApiUsers (page_limit (Some "1") (Some "0")) w)
     = Json 200 (UsersPage (paginate (users w) (JS.Num 1) (JS.Num 10)))
  /\ fst (serve localeCompare ApiProducts (page_limit (Some "0") (Some "10")) w)
     = Json 200 (ProductsPage (paginate (products w) (JS.Num 1) (JS.Num 10)))
  /\ fst (serve localeCompare ApiProducts (page_limit (Some "1") (Some "0")) w)
     = Json 200 (ProductsPage (paginate (products w) (JS.Num 1) (JS.Num 10))).
Proof.
  rewrite !serve_users, !serve_products. repeat split.
Qed.

(** The rest of C2 holds: [limit=51] is rejected with the maximum error, a
    negative page or limit with the positivity error, and a page beyond
    [totalPages] is served with empty data and no [next]. *)
Lemma offset_boundaries (w : world) :
  fst (serve localeCompare ApiUsers (page_limit (Some "1") (Some "51")) w)
  = maximum_error
  /\ fst (serve localeCompare ApiUsers (page_limit (Some "-1") (Some "10")) w)
     = positive_error
  /\ fst (serve localeCompare ApiUsers (page_limit (Some "1") (Some "-3")) w)
     = positive_error
  /\ (forall q page limit,
      page_of q = JS.Num page -> limit_of q = JS.Num limit ->
      1 <= page -> 1 <= limit <= 50 -> is_array (users w) ->
      JS.length (users w) <= (page - 1) * limit ->
      exists result,
        fst (serve localeCompare ApiUsers q w) = Json 200 (UsersPage result)
        /\ Page.data result = [] /\ Page.next result = None)
  /\ (forall q limit,
      page_of q = JS.Infinity -> limit_of q = JS.Num limit ->
      1 <= limit <= 50 ->
      exists result,
        fst (serve localeCompare ApiUsers q w) = Json 200 (UsersPage result)
        /\ Page.data result = [] /\ Page.next result = None).
Proof.
  rewrite !serve_users.
  split; [reflexivity|]. split; [reflexivity|]. split; [reflexivity|].
  split.
  - intros q page limit Ep El Hp Hl Harray Hb.
    rewrite serve_users, Ep, El.
    rewrite validate_accepts by (cbn [at_least at_most]; lia).
    eexists; split; [reflexivity|]. apply page_beyond_last; (assumption || lia).
  - intros q limit Ep El Hl. rewrite serve_users, Ep, El.
    rewrite validate_accepts by (cbn [at_least at_most]; (exact I || lia)).
    eexists; split; [reflexivity|].
    destruct (paginate_infinite_page (users w) limit) as (Hd & Hn & _);
      [lia|]. split; assumption.
Qed.
End Boundaries.

(** ** Cursor pagination *)

Lemma StronglySorted_filter {A} (R : A -> A -> Prop) (f : A -> bool) l :
  StronglySorted R l -> StronglySorted R (filter f l).
Proof.
  induction 1 as [|a l Hl IH Ha]; simpl; [constructor|].
  destruct (f a); [|exact IH].
  constructor; [exact IH|].
  rewrite Forall_forall in *. intros x Hx.
  apply filter_In in Hx. now apply Ha.
Qed.

Lemma in_firstn {A} (n : nat) (l : list A) (x : A) :
  In x (firstn n l) -> In x l.
Proof.
  intros H. rewrite <- (firstn_skipn n l). apply in_or_app. now left.
Qed.

Lemma StronglySorted_firstn {A} (R : A -> A -> Prop) (n : nat) l :
  StronglySorted R l -> StronglySorted R (firstn n l).
Proof.
  intros H. revert n. induction H as [|a l Hl IH Ha]; intros [|n]; simpl;
    try constructor.
  - apply IH.
  - rewrite Forall_forall in *. intros x Hx.
    apply Ha. revert Hx. apply in_firstn.
Qed.

Lemma StronglySorted_map_seq {A} (R : A -> A -> Prop) (g : nat -> A) :
  (forall i j, (i < j)%nat -> R (g i) (g j)) ->
  forall n s, StronglySorted R (map g (seq s n)).
Proof.
  intros Hg. induction n as [|n IH]; intros s; simpl; constructor.
  - apply IH.
  - rewrite Forall_forall. intros x Hx.
    apply in_map_iff in Hx. destruct Hx as (j & <- & Hj).
    apply in_seq in Hj. apply Hg. lia.
Qed.

(** The mock users are generated in ascending order of id. *)
Lemma mock_users_ascending (r_age r_city : nat -> nat) :
  ascending (mock_users r_age r_city).
Proof.
  unfold ascending, mock_users.
  apply StronglySorted_map_seq. intros i j Hij. simpl. lia.
Qed.

Lemma nth_error_last {A} (front : list A) (u : A) :
  nth_error (front ++ [u])%list (List.length (front ++ [u])%list - 1) = Some u.
Proof.
  rewrite length_app. simpl.
  replace (List.length front + 1 - 1)%nat with (List.length front) by lia.
  rewrite nth_error_app2 by lia. now rewrite Nat.sub_diag.
Qed.

(** C3. For every [cursor >= 0] and [limit >= 1], cursor pagination returns
    as [data] the first [limit] users whose id is strictly greater than the
    cursor, in the order of the collection, which is ascending in id when
    the collection is; [hasMore] is true exactly when more than [limit]
    users have an id above the cursor; [nextCursor] is the id of the last
    item returned, and null when nothing is returned or [hasMore] is
    false. *)
Theorem cursor_paginate_spec (us : list User.t) (cursor limit : Z) :
  0 <= cursor -> 1 <= limit ->
  exists data nextCursor hasMore,
    cursor_paginate us (JS.Num cursor) (JS.Num limit)
    = CursorPage data nextCursor hasMore
    /\ data = firstn (Z.to_nat limit) (after (JS.Num cursor) us)
    /\ (forall u, In u (after (JS.Num cursor) us)
                  <-> In u us /\ cursor < User.id u)
    /\ (ascending us ->
        ascending (after (JS.Num cursor) us) /\ ascending data)
    /\ (hasMore = true
        <-> limit < Z.of_nat (List.length (after (JS.Num cursor) us)))
    /\ (data = [] \/ hasMore = false -> nextCursor = None)
    /\ (forall front u, data = (front ++ [u])%list -> hasMore = true ->
        nextCursor = Some (User.id u)).
Proof.
  intros Hc Hl. unfold cursor_paginate. fold (after (JS.Num cursor) us).
  rewrite slice_prefix by lia.
  set (data := firstn (Z.to_nat limit) (after (JS.Num cursor) us)).
  eexists data, _, _. split; [reflexivity|].
  split; [reflexivity|]. split.
  { intros u. unfold after, JS.gt. cbn [JS.lt].
    rewrite filter_In, Z.ltb_lt. tauto. }
  split.
  { intros Hasc. assert (ascending (after (JS.Num cursor) us)) as Ha
      by now apply StronglySorted_filter.
    split; [exact Ha|]. now apply StronglySorted_firstn. }
  split.
  { unfold JS.length, JS.gt. cbn [JS.lt]. apply Z.ltb_lt. }
  split.
  - intros [Hnil|Hno].
    + rewrite Hnil. simpl.
      match goal with |- (if ?b then _ else _) = _ => now destruct b end.
    + now rewrite Hno.
  - intros front u Hdata Hmore. rewrite Hmore, Hdata.
    rewrite nth_error_last. unfold JS.length. rewrite length_app. simpl.
    destruct (Z.ltb_spec 0 (Z.of_nat (List.length front + 1)));
      [reflexivity|lia].
Qed.

Lemma cursor_paginate_spec_witness :
  let u := fun i => User.make i "User" "user@example.com" 30 "Chicago" in
  exists data nextCursor hasMore,
    cursor_paginate [u 1; u 2; u 3; u 4; u 5] (JS.Num 1) (JS.Num 2)
    = CursorPage data nextCursor hasMore
    /\ data = [u 2; u 3] /\ hasMore = true /\ nextCursor = Some 3.
Proof.
  intros u.
  destruct (cursor_paginate_spec [u 1; u 2; u 3; u 4; u 5] 1 2
              ltac:(lia) ltac:(lia))
    as (data & nextCursor & hasMore & E & Hd & _ & _ & Hm & _ & Hn).
  exists data, nextCursor, hasMore.
  assert (hasMore = true) as Hmore by (apply Hm; simpl; lia).
  split; [exact E|]. split; [exact Hd|]. split; [exact Hmore|].
  exact (Hn [u 2] (u 3) Hd Hmore).
Defined.

(** With a limit that no array reaches (the limit [Infinity] of a numeral
    too large for a double among them), every user after the cursor is
    returned: there is nothing more and no next cursor. *)
Lemma cursor_paginate_all (us : list User.t) (cursor limit : JS.number) :
  at_least (JS.length (after cursor us)) limit ->
  cursor_paginate us cursor limit = CursorPage (after cursor us) None false.
Proof.
  intros H. unfold cursor_paginate. fold (after cursor us).
  rewrite (slice_all _ _ H).
  rewrite (at_least_not_lt _ _ _ H (Z.le_refl _)
           : JS.gt (JS.Num (JS.length (after cursor us))) limit = false).
  reflexivity.
Qed.

(** C4, as the code behaves.  On users 1..100, cursor 95 and limit 10 give
    the five users 96..100 with [hasMore = false], and [nextCursor] is
    null, because the handler sends [hasMore ? nextCursor : null]. *)
Theorem cursor_95_limit_10 (r_age r_city : nat -> nat) :
  cursor_paginate (mock_users r_age r_city) (JS.Num 95) (JS.Num 10)
  = CursorPage (skipn 95 (mock_users r_age r_city)) None false
  /\ map User.id (skipn 95 (mock_users r_age r_city)) = [96; 97; 98; 99; 100].
Proof.
  split; reflexivity.
Qed.

(** The claim as stated, with [nextCursor = 100], fails on users 1..100. *)
Lemma cursor_95_next_is_not_100 :
  ~ (forall r_age r_city : nat -> nat,
       exists data,
         cursor_paginate (mock_users r_age r_city) (JS.Num 95) (JS.Num 10)
         = CursorPage data (Some 100) false
         /\ map User.id data = [96; 97; 98; 99; 100]).
Proof.
  intros H. destruct (H (fun _ => O) (fun _ => O)) as (data & E & _).
  vm_compute in E. discriminate E.
Qed.

Section CursorLimit.
Context {rt : JS.Runtime}.
Variable localeCompare : string -> string -> Z.

(** C5. Cursor pagination has no maximum on [limit]: for every request
    whose limit exceeds 50 the cursor endpoint answers 200 with the first
    [limit] users after the cursor (all of them when the limit is
    [Infinity]), while [/api/users] and [/api/products] answer the same
    limit with a validation error. *)
Theorem cursor_limit_unbounded (q : Query.t) (w : world) :
  more_than 50 (limit_of q) ->
  (exists data nextCursor hasMore,
     fst (serve localeCompare ApiUsersCursor q w)
     = Json 200 (CursorPage data nextCursor hasMore)
     /\ (forall limit, limit_of q = JS.Num limit ->
         data = firstn (Z.to_nat limit) (after (cursor_of q) (users w)))
     /\ (limit_of q = JS.Infinity -> data = after (cursor_of q) (users w))
     /\ at_least (Z.of_nat (List.length data)) (limit_of q))
  /\ (fst (serve localeCompare ApiUsers q w) = positive_error
      \/ fst (serve localeCompare ApiUsers q w) = maximum_error)
  /\ (fst (serve localeCompare ApiProducts q w) = positive_error
      \/ fst (serve localeCompare ApiProducts q w) = maximum_error).
Proof.
  intros Hl. split.
  - rewrite serve_cursor. unfold cursor_paginate; cbn [fst].
    fold (after (cursor_of q) (users w)).
    eexists _, _, _. split; [reflexivity|].
    destruct (limit_of q) as [limit| | |] eqn:El;
      cbn [more_than at_least] in Hl; try contradiction.
    + unfold more_than in Hl. cbn [at_least] in Hl.
      rewrite slice_prefix by lia.
      split; [intros ? [= <-]; reflexivity|].
      split; [discriminate|]. cbn [at_least].
      rewrite length_firstn. lia.
    + rewrite slice_all by exact I.
      split; [discriminate|]. split; [reflexivity|exact I].
  - rewrite serve_users, serve_products.
    assert (page_of q <> JS.NaN) as Hnan
      by (apply or_default_not_nan; discriminate).
    destruct (validate_rejects_large_limit (page_of q) (limit_of q) Hnan Hl)
      as [E|E]; rewrite E; auto.
Qed.
End CursorLimit.

Lemma cursor_limit_unbounded_witness :
  let w := initial (fun i => i) (fun i => i) (fun i => i) (fun i => i)
             (fun i => i) in
  let q := cursor_limit (Some "0") (Some "1000") in
  (exists data nextCursor hasMore,
     fst (serve (rt := example_runtime) (fun _ _ => 0) ApiUsersCursor q w)
     = Json 200 (CursorPage data nextCursor hasMore)
     /\ Z.of_nat (List.length data) <= 1000)
  /\ (fst (serve (rt := example_runtime) (fun _ _ => 0) ApiUsers q w)
      = positive_error
      \/ fst (serve (rt := example_runtime) (fun _ _ => 0) ApiUsers q w)
         = maximum_error).
Proof.
  intros w q.
  destruct (cursor_limit_unbounded (rt := example_runtime) (fun _ _ => 0) q w
              ltac:(vm_compute; discriminate))
    as ((data & nextCursor & hasMore & E & _ & _ & Hlen) & Hu & _).
  split; [|exact Hu].
  exists data, nextCursor, hasMore. split; [exact E|exact Hlen].
Defined.

(** ** Search *)

Lemma filter_subsequence {A} (f : A -> bool) (l : list A) :
  subsequence (filter f l) l.
Proof.
  induction l as [|a l IH]; simpl; [constructor|].
  destruct (f a); now constructor.
Qed.

Lemma filter_all {A} (f : A -> bool) (l : list A) :
  (forall x, f x = true) -> filter f l = l.
Proof.
  intros Hf. induction l as [|a l IH]; simpl; [reflexivity|].
  now rewrite Hf, IH.
Qed.

Lemma startsWith_spec (s t : string) :
  JS.startsWith s t = true <-> exists post, s = t ++ post.
Proof.
  revert s. induction t as [|b t IH]; intros [|a s]; simpl.
  - split; [intros _; now exists ""|reflexivity].
  - split; [intros _; now exists (String a s)|reflexivity].
  - split; [discriminate|]. intros (post & H). discriminate H.
  - rewrite andb_true_iff, Ascii.eqb_eq, IH. split.
    + intros (-> & post & ->). now exists post.
    + intros (post & H). injection H as -> ->. split; [reflexivity|].
      now exists post.
Qed.

Lemma includes_cons (a : ascii) (s t : string) :
  JS.includes (String a s) t
  = JS.startsWith (String a s) t || JS.includes s t.
Proof. reflexivity. Qed.

Lemma includes_empty (t : string) :
  JS.includes "" t = JS.startsWith "" t.
Proof. apply orb_false_r. Qed.

Lemma includes_spec (s t : string) :
  JS.includes s t = true <-> substring t s.
Proof.
  unfold substring. induction s as [|a s IH].
  - rewrite includes_empty, startsWith_spec. split.
    + intros (post & H). now exists "", post.
    + intros ([|c pre] & post & H); simpl in H; [now exists post|discriminate].
  - rewrite includes_cons, orb_true_iff, startsWith_spec, IH. split.
    + intros [(post & H)|(pre & post & H)].
      * now exists "", post.
      * exists (String a pre), post. simpl. now rewrite H.
    + intros ([|c pre] & post & H); simpl in H.
      * left. now exists post.
      * injection H as -> ->. right. now exists pre, post.
Qed.

(** *** Lowering ASCII *)

Lemma nat_of_ascii_inj (c d : ascii) :
  nat_of_ascii c = nat_of_ascii d -> c = d.
Proof.
  intros H. rewrite <- (ascii_nat_embedding c), <- (ascii_nat_embedding d).
  now rewrite H.
Qed.

Lemma lower_char_code (c : ascii) :
  nat_of_ascii (JS.lower_char c) =
  if ((65 <=? nat_of_ascii c) && (nat_of_ascii c <=? 90))%nat
  then (nat_of_ascii c + 32)%nat else nat_of_ascii c.
Proof.
  unfold JS.lower_char.
  destruct ((65 <=? nat_of_ascii c) && (nat_of_ascii c <=? 90))%nat eqn:E;
    [|reflexivity].
  apply andb_true_iff in E. destruct E as (_ & E). apply Nat.leb_le in E.
  apply nat_ascii_embedding. lia.
Qed.

(** Two characters have the same lower-case form exactly when they are the
    same letter. *)
Lemma lower_char_same (c d : ascii) :
  JS.lower_char c = JS.lower_char d <-> same_letter c d.
Proof.
  unfold same_letter, capital_of. split.
  - intros H. apply (f_equal nat_of_ascii) in H.
    rewrite !lower_char_code in H.
    destruct (Nat.leb_spec 65 (nat_of_ascii c)),
             (Nat.leb_spec (nat_of_ascii c) 90),
             (Nat.leb_spec 65 (nat_of_ascii d)),
             (Nat.leb_spec (nat_of_ascii d) 90);
      cbn [andb] in H;
      try (left; apply nat_of_ascii_inj; lia);
      try (right; left; lia); right; right; lia.
  - intros H. apply nat_of_ascii_inj. rewrite !lower_char_code.
    destruct H as [->|[(Hc & E)|(Hd & E)]]; [reflexivity| |].
    + rewrite E.
      destruct (Nat.leb_spec 65 (nat_of_ascii c)),
               (Nat.leb_spec (nat_of_ascii c) 90),
               (Nat.leb_spec 65 (nat_of_ascii c + 32)),
               (Nat.leb_spec (nat_of_ascii c + 32) 90);
        cbn [andb]; lia.
    + rewrite E.
      destruct (Nat.leb_spec 65 (nat_of_ascii d)),
               (Nat.leb_spec (nat_of_ascii d) 90),
               (Nat.leb_spec 65 (nat_of_ascii d + 32)),
               (Nat.leb_spec (nat_of_ascii d + 32) 90);
        cbn [andb]; lia.
Qed.

Lemma lower_ascii_same (a b : string) :
  JS.lower_ascii a = JS.lower_ascii b <-> same_letters a b.
Proof.
  revert b. induction a as [|c a IH]; intros [|d b]; simpl.
  - tauto.
  - split; [discriminate|tauto].
  - split; [discriminate|tauto].
  - rewrite <- IH, <- lower_char_same. split.
    + intros H. now injection H.
    + intros (-> & ->). reflexivity.
Qed.

Lemma lower_ascii_app (a b : string) :
  JS.lower_ascii (a ++ b) = JS.lower_ascii a ++ JS.lower_ascii b.
Proof.
  induction a as [|c a IH]; simpl; [reflexivity|]. now rewrite IH.
Qed.

(** A split of the lowered string comes from a split of the string. *)
Lemma lower_ascii_split (s a b : string) :
  JS.lower_ascii s = a ++ b ->
  exists s1 s2, s = s1 ++ s2
                /\ JS.lower_ascii s1 = a /\ JS.lower_ascii s2 = b.
Proof.
  revert s. induction a as [|c a IH]; intros s H; simpl in H.
  - exists "", s. auto.
  - destruct s as [|d s]; simpl in H; [discriminate|].
    injection H as Hc Hs. destruct (IH s Hs) as (s1 & s2 & -> & H1 & H2).
    exists (String d s1), s2. simpl. now rewrite Hc, H1.
Qed.

Lemma lower_char_idempotent (c : ascii) :
  JS.lower_char (JS.lower_char c) = JS.lower_char c.
Proof.
  destruct c as [[] [] [] [] [] [] [] []]; reflexivity.
Qed.

Lemma lower_char_ascii (c : ascii) :
  JS.is_ascii (JS.lower_char c) = JS.is_ascii c.
Proof.
  destruct c as [[] [] [] [] [] [] [] []]; reflexivity.
Qed.

Lemma lower_ascii_idempotent (s : string) :
  JS.lower_ascii (JS.lower_ascii s) = JS.lower_ascii s.
Proof.
  induction s as [|c s IH]; simpl; [reflexivity|].
  now rewrite lower_char_idempotent, IH.
Qed.

Lemma lower_ascii_all_ascii (s : string) :
  JS.all_ascii (JS.lower_ascii s) = JS.all_ascii s.
Proof.
  induction s as [|c s IH]; simpl; [reflexivity|].
  now rewrite lower_char_ascii, IH.
Qed.

(** On ASCII, the occurrence of the lowered term in the lowered text is the
    case-insensitive occurrence. *)
Lemma includes_lower_ascii (term s : string) :
  JS.includes (JS.lower_ascii s) (JS.lower_ascii term) = true
  <-> occurs_ignoring_case term s.
Proof.
  rewrite includes_spec. unfold substring, occurs_ignoring_case. split.
  - intros (pre & post & H).
    apply lower_ascii_split in H. destruct H as (s1 & s23 & -> & H1 & H23).
    apply lower_ascii_split in H23. destruct H23 as (s2 & s3 & -> & H2 & H3).
    exists s1, s2, s3. split; [reflexivity|]. now apply lower_ascii_same.
  - intros (pre & mid & post & -> & Hmid).
    apply lower_ascii_same in Hmid.
    exists (JS.lower_ascii pre), (JS.lower_ascii post).
    now rewrite !lower_ascii_app, Hmid.
Qed.

Lemma all_ascii_app (a b : string) :
  JS.all_ascii (a ++ b) = JS.all_ascii a && JS.all_ascii b.
Proof.
  induction a as [|c a IH]; simpl; [reflexivity|].
  now rewrite IH, andb_assoc.
Qed.

Lemma all_ascii_show (n : nat) : JS.all_ascii (JS.show n) = true.
Proof.
  unfold JS.show. generalize (Nat.to_uint n). intros d.
  induction d; simpl; auto.
Qed.

(** The fields of the mock users that the search reads are ASCII. *)
Lemma mock_users_ascii (r_age r_city : nat -> nat) :
  Forall ascii_user (mock_users r_age r_city).
Proof.
  unfold mock_users. rewrite Forall_forall. intros u Hu.
  apply in_map_iff in Hu. destruct Hu as (i & <- & _).
  unfold ascii_user. cbn [User.name User.email User.city].
  rewrite !all_ascii_app, all_ascii_show. split; [reflexivity|].
  split; [reflexivity|].
  assert (In (nth (r_city i mod 5) cities "") cities) as Hin
    by (apply nth_In, Nat.mod_upper_bound; discriminate).
  revert Hin. generalize (nth (r_city i mod 5) cities "").
  intros city Hin. simpl in Hin.
  destruct Hin as [<-|[<-|[<-|[<-|[<-|[]]]]]]; reflexivity.
Qed.

Section Search.
Context {rt : JS.Runtime}.

Lemma toLowerCase_ascii (s : string) :
  JS.all_ascii s = true -> JS.toLowerCase s = JS.lower_ascii s.
Proof.
  intros H. unfold JS.toLowerCase, JS.lower_with. now rewrite H.
Qed.

(** Lowering a string twice is lowering it once. *)
Lemma toLowerCase_idempotent (s : string) :
  JS.toLowerCase (JS.toLowerCase s) = JS.toLowerCase s.
Proof.
  destruct (JS.all_ascii s) eqn:E.
  - rewrite (toLowerCase_ascii s E).
    rewrite toLowerCase_ascii by now rewrite lower_ascii_all_ascii.
    apply lower_ascii_idempotent.
  - unfold JS.toLowerCase at 2 3. unfold JS.lower_with. rewrite E.
    apply JS.lowerUnicode_lowered. exact E.
Qed.

(** The test made on each field. *)
Lemma includes_narrower (term s : string) :
  JS.includes (JS.toLowerCase s) (JS.toLowerCase term) = true
  <-> narrower s term.
Proof. apply includes_spec. Qed.

Lemma includes_ignoring_case (term s : string) :
  JS.all_ascii term = true -> JS.all_ascii s = true ->
  (JS.includes (JS.toLowerCase s) (JS.toLowerCase term) = true
   <-> occurs_ignoring_case term s).
Proof.
  intros Ht Hs. rewrite !toLowerCase_ascii by assumption.
  apply includes_lower_ascii.
Qed.

Lemma matches_lowered (term : string) (u : User.t) :
  matches (JS.toLowerCase term) u = matches term u.
Proof.
  unfold matches. now rewrite toLowerCase_idempotent.
Qed.

(** C6, as the code behaves.  The search keeps exactly the users in whose
    name, email or city the lower-case form of the term occurs in the
    lower-case form of the field.  When the term and the three fields are
    ASCII, as the fields of the mock users always are, these are the users
    in whose name, email or city the term occurs up to the case of the
    letters.  The empty term keeps every user; the result is in the order
    of the collection; a term and its lower-case form give the same
    result, as do ["USER"] and ["user"]. *)
Theorem search_filter_spec (term : string) (us : list User.t) :
  (forall u, In u (search_filter term us) <->
             In u us /\ (narrower (User.name u) term
                         \/ narrower (User.email u) term
                         \/ narrower (User.city u) term))
  /\ (JS.all_ascii term = true ->
      forall u, ascii_user u ->
        (In u (search_filter term us) <->
         In u us /\ (occurs_ignoring_case term (User.name u)
                     \/ occurs_ignoring_case term (User.email u)
                     \/ occurs_ignoring_case term (User.city u))))
  /\ (forall r_age r_city, Forall ascii_user (mock_users r_age r_city))
  /\ search_filter "" us = us
  /\ subsequence (search_filter term us) us
  /\ search_filter term us = search_filter (JS.toLowerCase term) us
  /\ search_filter "USER" us = search_filter "user" us.
Proof.
  split; [|split; [|split; [|split; [|split; [|split]]]]].
  - intros u. unfold search_filter, matches.
    rewrite filter_In, !orb_true_iff, !includes_narrower. tauto.
  - intros Ht u (Hn & He & Hc). unfold search_filter, matches.
    rewrite filter_In, !orb_true_iff.
    rewrite !includes_ignoring_case by assumption. tauto.
  - apply mock_users_ascii.
  - apply filter_all. intros u. unfold matches.
    change (JS.toLowerCase "") with "".
    now destruct (JS.toLowerCase (User.name u)).
  - apply filter_subsequence.
  - unfold search_filter. apply filter_ext. intros u.
    now rewrite matches_lowered.
  - reflexivity.
Qed.
End Search.

(** The claim as stated fails outside ASCII, where lowering a term is not
    lowering its letters: the capital sigma occurs in the capital word as
    it is written, and the search for it does not find the user of that
    city, because the sigma that ends the word is lowered to the final
    sigma and the sigma alone is not. *)
Lemma capital_sigma_is_not_found :
  let u := User.make 1 "User1" "user1@example.com" 30 capital_word in
  substring capital_sigma (User.city u)
  /\ occurs_ignoring_case capital_sigma (User.city u)
  /\ search_filter (rt := example_runtime) capital_sigma [u] = [].
Proof.
  intros u. split; [|split].
  - exists (text [206; 159; 206; 148; 206; 159]%nat), "". reflexivity.
  - exists (text [206; 159; 206; 148; 206; 159]%nat), capital_sigma, "".
    split; [reflexivity|]. cbn. split; [now left|]. split; [now left|exact I].
  - reflexivity.
Qed.

(** In the other direction the search finds what is not written: the
    Kelvin sign is lowered to the letter [k], so that the search for it
    finds the users of New York. *)
Lemma kelvin_sign_finds_new_york :
  let u := User.make 1 "User1" "user1@example.com" 30 "New York" in
  search_filter (rt := example_runtime) kelvin_sign [u] = [u]
  /\ ~ substring kelvin_sign (User.city u).
Proof.
  intros u. split; [reflexivity|].
  intros H. apply includes_spec in H. discriminate H.
Qed.

(** ** Attribute filter *)

Lemma le_within (price : Z) (bound : JS.number) :
  JS.le (JS.Num price) bound = true <-> within price bound.
Proof.
  destruct bound; simpl.
  - apply Z.leb_le.
  - tauto.
  - split; [discriminate|tauto].
  - split; [discriminate|tauto].
Qed.

Lemma ge_at_most (price : Z) (bound : JS.number) :
  JS.ge (JS.Num price) bound = true <-> at_most price bound.
Proof.
  unfold JS.ge. destruct bound; simpl.
  - apply Z.leb_le.
  - split; [discriminate|tauto].
  - tauto.
  - split; [discriminate|tauto].
Qed.

Lemma in_price_range_spec (lo hi : JS.number) (p : Product.t) :
  in_price_range lo hi p = true
  <-> at_most (Product.price p) lo /\ within (Product.price p) hi.
Proof.
  unfold in_price_range.
  now rewrite andb_true_iff, ge_at_most, le_within.
Qed.

Lemma subsequence_trans {A} (l1 l2 l3 : list A) :
  subsequence l1 l2 -> subsequence l2 l3 -> subsequence l1 l3.
Proof.
  intros H12 H23. revert l1 H12.
  induction H23 as [|x l2 l3 H IH|x l2 l3 H IH]; intros l1 H12.
  - exact H12.
  - inversion H12; subst; constructor; now apply IH.
  - constructor. now apply IH.
Qed.

(** The claim as stated fails for [maxPrice=0]: the parameter is numeric,
    yet it is not used as the bound; a product that costs 10 is kept. *)
Lemma maxPrice_zero_is_no_bound :
  let q := filter_query None None (Some "0") in
  let p := Product.make 1 "Product 1" 10 "Books" 5 in
  JS.parseInt (Query.maxPrice q) = JS.Num 0
  /\ In p (attribute_filter (rt := example_runtime) (Query.category q)
             (minPrice_of q) (maxPrice_of q) [p])
  /\ ~ Product.price p <= 0.
Proof.
  split; [reflexivity|]. split; [now left|]. simpl. lia.
Qed.

Section AttributeFilter.
Context {rt : JS.Runtime}.

Lemma same_category_spec (c : string) (p : Product.t) :
  same_category c p = true <-> same_ignoring_case (Product.category p) c.
Proof. apply String.eqb_eq. Qed.

(** C7, as the code behaves.  The filter keeps exactly the products with
    [minPrice <= price <= maxPrice], in their order, where [minPrice] is the
    number parsed from the parameter, and 0 when there is none, and
    [maxPrice] is the number parsed from the parameter when it is not zero,
    and +infinity when there is none or when it is zero; when [category] is
    a non-empty string, only the products whose category equals it up to
    case are kept. *)
Theorem attribute_filter_spec
    (category minPrice maxPrice : option string) (ps : list Product.t) :
  let q := filter_query category minPrice maxPrice in
  let result :=
    attribute_filter (Query.category q) (minPrice_of q) (maxPrice_of q) ps in
  (forall p, In p result <->
     In p ps
     /\ at_most (Product.price p) (minPrice_of q)
     /\ within (Product.price p) (maxPrice_of q)
     /\ (forall c, category = Some c -> c <> "" ->
         same_ignoring_case (Product.category p) c))
  /\ subsequence result ps
  /\ minPrice_of q = match JS.parseInt minPrice with
                     | JS.NaN => JS.Num 0
                     | n => n
                     end
  /\ maxPrice_of q = match JS.parseInt maxPrice with
                     | JS.Num 0 => JS.Infinity
                     | JS.NaN => JS.Infinity
                     | n => n
                     end.
Proof.
  intros q result. split; [|split; [|split]].
  - intros p. unfold result, attribute_filter. simpl.
    destruct category as [[|a c]|]; simpl.
    + rewrite filter_In, in_price_range_spec. split.
      * intros (Hin & Hlo & Hhi). repeat split; auto.
        intros c E. injection E as <-. congruence.
      * tauto.
    + rewrite !filter_In, in_price_range_spec, same_category_spec. split.
      * intros ((Hin & Hlo & Hhi) & Hc). repeat split; auto.
        intros c' E _. now injection E as <-.
      * intros (Hin & Hlo & Hhi & Hc). repeat split; auto.
        apply Hc; [reflexivity|discriminate].
    + rewrite filter_In, in_price_range_spec. split.
      * intros (Hin & Hlo & Hhi). repeat split; auto. discriminate.
      * tauto.
  - unfold result, attribute_filter. simpl.
    destruct (JS.truthy category); [destruct category|];
      try apply filter_subsequence.
    eapply subsequence_trans; apply filter_subsequence.
  - unfold minPrice_of. simpl.
    destruct (JS.parseInt minPrice) as [z| | |]; simpl; try reflexivity.
    destruct (Z.eqb_spec z 0); congruence.
  - unfold maxPrice_of, JS.or_infinity. simpl.
    destruct (JS.parseInt maxPrice) as [z| | |]; simpl; try reflexivity.
    destruct z; reflexivity.
Qed.
End AttributeFilter.

(** ** The collections are never written *)

Lemma nth_error_snoc {A} (l : list A) (a : A) :
  nth_error (l ++ [a])%list (List.length l) = Some a.
Proof.
  rewrite nth_error_app2 by lia. now rewrite Nat.sub_diag.
Qed.

Lemma set_nth_snoc {A} (l : list A) (a b : A) :
  set_nth (List.length l) b (l ++ [a])%list = (l ++ [b])%list.
Proof.
  induction l as [|c l IH]; simpl; [reflexivity|]. now rewrite IH.
Qed.

Section Frame.
Context {rt : JS.Runtime}.
Variable localeCompare : string -> string -> Z.

(** The sorted endpoint copies [products], sorts the copy in place and
    pages the copy; [products] itself is only read. *)
Lemma serve_sorted (q : Query.t) (w : world) :
  serve localeCompare ApiProductsSorted q w =
  let sortBy := JS.or_string (Query.sortBy q) "id" in
  let order := JS.or_string (Query.order q) "asc" in
  match sort_products localeCompare sortBy order (products w) with
  | Some s =>
      (Json 200 (SortedPage (paginate s (page_of q) (limit_of q))
                   sortBy order),
       World (users w) (products w) (fresh w ++ [s]))
  | None =>
      (Uncaught, World (users w) (products w) (fresh w ++ [products w]))
  end.
Proof.
  unfold serve, handler, get_products_sorted, spread, sort_in_place,
    sort_products, bind, read, write, ret, throw. simpl.
  rewrite nth_error_snoc.
  destruct (JS.sort _ (products w)) as [s|]; simpl; [|reflexivity].
  now rewrite set_nth_snoc, nth_error_snoc.
Qed.

Lemma serve_frame (e : endpoint) (q : Query.t) (w : world) :
  users (snd (serve localeCompare e q w)) = users w
  /\ products (snd (serve localeCompare e q w)) = products w.
Proof.
  destruct e.
  - now rewrite serve_users.
  - now rewrite serve_products.
  - now rewrite serve_search.
  - now rewrite serve_filter.
  - rewrite serve_sorted. cbv zeta.
    now destruct (sort_products _ _ _ _).
  - now rewrite serve_cursor.
Qed.

(** The response is a function of the request and the two collections. *)
Lemma serve_reads_collections (e : endpoint) (q : Query.t) (w1 w2 : world) :
  users w1 = users w2 -> products w1 = products w2 ->
  fst (serve localeCompare e q w1) = fst (serve localeCompare e q w2).
Proof.
  intros Hu Hp. destruct e.
  - now rewrite !serve_users, Hu.
  - now rewrite !serve_products, Hp.
  - now rewrite !serve_search, Hu.
  - now rewrite !serve_filter, Hp.
  - rewrite !serve_sorted, Hp. cbv zeta.
    now destruct (sort_products _ _ _ _).
  - now rewrite !serve_cursor, Hu.
Qed.

Lemma run_frame (requests : list (endpoint * Query.t)) (w : world) :
  users (snd (run localeCompare requests w)) = users w
  /\ products (snd (run localeCompare requests w)) = products w.
Proof.
  revert w. induction requests as [|[e q] rest IH]; intros w; simpl;
    [now split|].
  destruct (serve localeCompare e q w) as [r w'] eqn:E.
  destruct (run localeCompare rest w') as [rs w''] eqn:E'. simpl.
  pose proof (serve_frame e q w) as [Hu Hp]. rewrite E in Hu, Hp.
  pose proof (IH w') as [Hu' Hp']. rewrite E' in Hu', Hp'. simpl in *.
  split; congruence.
Qed.

(** C9. No query operation writes to the collections: after any request
    to any of the six endpoints, and after any sequence of such requests,
    [users] and [products] are what they were, so that the same request
    made again receives the same response. *)
Theorem collections_unchanged
    (e : endpoint) (q : Query.t)
    (history : list (endpoint * Query.t)) (w : world) :
  users (snd (serve localeCompare e q w)) = users w
  /\ products (snd (serve localeCompare e q w)) = products w
  /\ users (snd (run localeCompare history w)) = users w
  /\ products (snd (run localeCompare history w)) = products w
  /\ fst (serve localeCompare e q (snd (serve localeCompare e q w)))
     = fst (serve localeCompare e q w)
  /\ fst (serve localeCompare e q (snd (run localeCompare history w)))
     = fst (serve localeCompare e q w).
Proof.
  pose proof (serve_frame e q w) as [Hu Hp].
  pose proof (run_frame history w) as [Hu' Hp'].
  split; [exact Hu|]. split; [exact Hp|].
  split; [exact Hu'|]. split; [exact Hp'|].
  split; now apply serve_reads_collections.
Qed.
End Frame.

(** ** The stable sort *)

Section StableSort.
Context {A : Type}.

Lemma sort_total (compare : A -> A -> option Z) (cmp : A -> A -> Z) :
  (forall a b, compare a b = Some (cmp a b)) ->
  forall l, JS.sort compare l = Some (stable_sort cmp l).
Proof.
  intros Hc.
  assert (Hi : forall a l,
             JS.insert compare a l = Some (stable_insert cmp a l)).
  { intros a l. induction l as [|b l IH]; simpl; [reflexivity|].
    rewrite Hc. destruct (0 <? cmp a b); [|reflexivity].
    now rewrite IH. }
  induction l as [|a l IH]; simpl; [reflexivity|].
  now rewrite IH, Hi.
Qed.

Variable cmp : A -> A -> Z.

Lemma stable_insert_perm (a : A) (l : list A) :
  Permutation (stable_insert cmp a l) (a :: l).
Proof.
  induction l as [|b l IH]; simpl; [reflexivity|].
  destruct (0 <? cmp a b); [|reflexivity].
  rewrite IH. apply perm_swap.
Qed.

Lemma stable_sort_perm (l : list A) : Permutation (stable_sort cmp l) l.
Proof.
  induction l as [|a l IH]; simpl; [reflexivity|].
  now rewrite stable_insert_perm, IH.
Qed.

(** Sorting a list that is already in order changes nothing. *)
Lemma stable_sort_sorted (l : list A) :
  Sorted (not_after cmp) l -> stable_sort cmp l = l.
Proof.
  induction 1 as [|a l Hl IH Ha]; simpl; [reflexivity|].
  rewrite IH. destruct Ha as [|b l Hab]; simpl; [reflexivity|].
  unfold not_after in Hab.
  destruct (Z.ltb_spec 0 (cmp a b)); [lia|reflexivity].
Qed.

Hypothesis cmp_consistent : consistent cmp.

Lemma cmp_flip (a b : A) : 0 < cmp a b -> cmp b a <= 0.
Proof.
  destruct cmp_consistent as [Hs _]. specialize (Hs a b). lia.
Qed.

Lemma cmp_tie_sym (a b : A) : cmp a b = 0 -> cmp b a = 0.
Proof.
  destruct cmp_consistent as [Hs _]. specialize (Hs a b). lia.
Qed.

Lemma cmp_refl (a : A) : cmp a a = 0.
Proof.
  destruct cmp_consistent as [Hs _]. specialize (Hs a a). lia.
Qed.

Lemma stable_insert_sorted (a : A) (l : list A) :
  StronglySorted (not_after cmp) l ->
  StronglySorted (not_after cmp) (stable_insert cmp a l).
Proof.
  destruct cmp_consistent as [_ Ht].
  induction 1 as [|b l Hl IH Hb]; simpl.
  - constructor; constructor.
  - destruct (Z.ltb_spec 0 (cmp a b)) as [Hgt|Hle].
    + constructor; [exact IH|].
      rewrite Forall_forall in *. intros x Hx.
      apply (Permutation_in _ (stable_insert_perm a l)) in Hx.
      destruct Hx as [<-|Hx]; [now apply cmp_flip|now apply Hb].
    + constructor; [now constructor|].
      constructor; [exact Hle|].
      rewrite Forall_forall in *. intros x Hx.
      apply (Ht a b x); [exact Hle|now apply Hb].
Qed.

Lemma stable_sort_ordered (l : list A) :
  StronglySorted (not_after cmp) (stable_sort cmp l).
Proof.
  induction l as [|a l IH]; simpl; [constructor|].
  now apply stable_insert_sorted.
Qed.

(** Sorting twice is sorting once. *)
Lemma stable_sort_idempotent (l : list A) :
  stable_sort cmp (stable_sort cmp l) = stable_sort cmp l.
Proof.
  apply stable_sort_sorted, StronglySorted_Sorted, stable_sort_ordered.
Qed.

(** Two elements that both tie with [x] tie with each other. *)
Lemma ties_with_trans (x a b : A) :
  ties_with cmp x a = true -> ties_with cmp x b = true -> cmp a b = 0.
Proof.
  unfold ties_with. rewrite !Z.eqb_eq. intros Ha Hb.
  destruct cmp_consistent as [_ Ht].
  pose proof (cmp_tie_sym _ _ Ha). pose proof (cmp_tie_sym _ _ Hb).
  assert (cmp a b <= 0) by (apply (Ht a x b); lia).
  assert (cmp b a <= 0) by (apply (Ht b x a); lia).
  destruct (Z.ltb_spec 0 (cmp b a)) as [Hgt|Hle]; [lia|].
  destruct (Z.eq_dec (cmp a b) 0) as [E|N]; [exact E|].
  assert (0 < cmp b a); [|lia].
  destruct cmp_consistent as [Hs _]. specialize (Hs a b). lia.
Qed.

(** Stability: the elements that tie with a given one keep the order
    they had before the sort. *)
Lemma stable_insert_stable (x a : A) (l : list A) :
  filter (ties_with cmp x) (stable_insert cmp a l)
  = filter (ties_with cmp x) (a :: l).
Proof.
  induction l as [|b l IH]; [reflexivity|].
  cbn [stable_insert]. destruct (Z.ltb_spec 0 (cmp a b)) as [Hgt|_];
    [|reflexivity].
  cbn [filter] in *. rewrite IH.
  destruct (ties_with cmp x a) eqn:Ea, (ties_with cmp x b) eqn:Eb;
    try reflexivity.
  pose proof (ties_with_trans x a b Ea Eb). lia.
Qed.

Lemma stable_sort_stable (x : A) (l : list A) :
  filter (ties_with cmp x) (stable_sort cmp l) = filter (ties_with cmp x) l.
Proof.
  induction l as [|a l IH]; [reflexivity|].
  cbn [stable_sort]. rewrite stable_insert_stable. cbn [filter].
  now rewrite IH.
Qed.
End StableSort.

(** ** Ascending and descending order *)

Section Reverse.
Context {A : Type}.

Lemma StronglySorted_weaken (R R' : A -> A -> Prop) (l : list A) :
  (forall a b, R a b -> R' a b) ->
  StronglySorted R l -> StronglySorted R' l.
Proof.
  intros HR. induction 1 as [|a l Hl IH Ha]; constructor; [exact IH|].
  revert Ha. apply Forall_impl. apply HR.
Qed.

Lemma StronglySorted_snoc (R : A -> A -> Prop) (l : list A) (a : A) :
  StronglySorted R l -> Forall (fun x => R x a) l ->
  StronglySorted R (l ++ [a])%list.
Proof.
  induction 1 as [|b l Hl IH Hb]; intros Ha; simpl.
  - constructor; constructor.
  - inversion Ha as [|? ? Hba Hla]; subst.
    constructor; [now apply IH|].
    apply Forall_app. split; [exact Hb|]. now constructor.
Qed.

Lemma StronglySorted_rev (R : A -> A -> Prop) (l : list A) :
  StronglySorted R l -> StronglySorted (fun a b => R b a) (rev l).
Proof.
  induction 1 as [|a l Hl IH Ha]; simpl; [constructor|].
  apply StronglySorted_snoc; [exact IH|].
  apply Forall_rev. exact Ha.
Qed.

(** Two orderings of the same elements agree when no two distinct
    elements are each before the other. *)
Lemma sorted_unique (R : A -> A -> Prop) (l1 l2 : list A) :
  (forall x y, In x l1 -> In y l1 -> R x y -> R y x -> x = y) ->
  StronglySorted R l1 -> StronglySorted R l2 -> Permutation l1 l2 ->
  l1 = l2.
Proof.
  intros Hanti H1. revert l2 Hanti.
  induction H1 as [|a l1 Hl1 IH Ha]; intros l2 Hanti H2 Hp.
  - apply Permutation_nil in Hp. now subst.
  - destruct H2 as [|b l2 Hl2 Hb].
    + apply Permutation_sym, Permutation_nil in Hp. discriminate.
    + assert (a = b) as <-.
      { assert (In a (b :: l2)) as Hin
          by (apply (Permutation_in _ Hp); now left).
        assert (In b (a :: l1)) as Hin'
          by (apply (Permutation_in _ (Permutation_sym Hp)); now left).
        destruct Hin as [E|Hin]; [now subst|].
        destruct Hin' as [E|Hin']; [now subst|].
        rewrite Forall_forall in Ha, Hb.
        apply Hanti; [now left|now right|now apply Ha|now apply Hb]. }
      f_equal. apply IH; [|exact Hl2|now apply Permutation_cons_inv in Hp].
      intros x y Hx Hy. apply Hanti; now right.
Qed.

Variable cmp : A -> A -> Z.
Hypothesis cmp_consistent : consistent cmp.

Lemma consistent_opp : consistent (fun a b => - cmp a b).
Proof.
  destruct cmp_consistent as [Hs Ht]. split.
  - intros a b. rewrite !Z.sgn_opp, (Hs a b). lia.
  - intros a b c Hab Hbc.
    assert (cmp c b <= 0) by (specialize (Hs b c); lia).
    assert (cmp b a <= 0) by (specialize (Hs a b); lia).
    assert (cmp c a <= 0) by now apply (Ht c b a).
    specialize (Hs a c). lia.
Qed.

(** Without ties, the descending sort is the ascending sort reversed. *)
Lemma stable_sort_reverse (l : list A) :
  no_ties cmp l ->
  rev (stable_sort cmp l) = stable_sort (fun a b => - cmp a b) l.
Proof.
  intros Hno.
  apply (sorted_unique (fun a b => cmp b a <= 0)).
  - intros x y Hx Hy Hyx Hxy.
    assert (forall z, In z (rev (stable_sort cmp l)) -> In z l) as Hin.
    { intros z Hz. apply in_rev in Hz.
      now apply (Permutation_in _ (stable_sort_perm cmp l)). }
    destruct (ForallOrdPairs_In Hno x y (Hin x Hx) (Hin y Hy))
      as [E|[N|N]]; [exact E| |].
    + destruct cmp_consistent as [Hs _]. specialize (Hs x y). lia.
    + destruct cmp_consistent as [Hs _]. specialize (Hs x y). lia.
  - apply (StronglySorted_rev (not_after cmp)).
    now apply stable_sort_ordered.
  - apply (StronglySorted_weaken (not_after (fun a b => - cmp a b))).
    + unfold not_after. intros a b Hab.
      destruct cmp_consistent as [Hs _]. specialize (Hs a b). lia.
    + apply stable_sort_ordered. exact consistent_opp.
  - rewrite <- Permutation_rev, stable_sort_perm.
    symmetry. apply stable_sort_perm.
Qed.
End Reverse.

(** ** Sorting the products *)

Section SortProducts.
Context {rt : JS.Runtime}.
Variable localeCompare : string -> string -> Z.

(** On a documented key the comparator never throws. *)
Lemma compare_products_supported (sortBy order : string) (a b : Product.t) :
  supported sortBy ->
  compare_products localeCompare sortBy order a b
  = Some (order_compare localeCompare sortBy order a b).
Proof.
  unfold compare_products, order_compare.
  intros [ -> | [ -> | [ -> | -> ]]]; simpl;
    destruct (String.eqb order "desc"); reflexivity.
Qed.

Lemma sort_products_supported (sortBy order : string) (ps : list Product.t) :
  supported sortBy ->
  sort_products localeCompare sortBy order ps
  = Some (stable_sort (order_compare localeCompare sortBy order) ps).
Proof.
  intros Hs. apply sort_total. intros a b.
  now apply compare_products_supported.
Qed.

Lemma key_compare_consistent (sortBy : string) :
  supported sortBy ->
  (sortBy = "name" -> consistent localeCompare) ->
  consistent (key_compare localeCompare sortBy).
Proof.
  unfold key_compare.
  intros [ -> | [ -> | [ -> | -> ]]] Hlc; simpl; try (split; intros; lia).
  destruct (Hlc eq_refl) as [Hs Ht]. split.
  - intros a b. apply Hs.
  - intros a b c. apply Ht.
Qed.

Lemma order_compare_consistent (sortBy order : string) :
  supported sortBy ->
  (sortBy = "name" -> consistent localeCompare) ->
  consistent (order_compare localeCompare sortBy order).
Proof.
  intros Hs Hlc. pose proof (key_compare_consistent sortBy Hs Hlc) as Hk.
  unfold order_compare. destruct (String.eqb order "desc").
  - now apply consistent_opp.
  - destruct Hk as [H1 H2]. split; [exact H1|exact H2].
Qed.

(** The ties are those of the key, in either order. *)
Lemma order_compare_ties (sortBy order : string) (x y : Product.t) :
  ties_with (order_compare localeCompare sortBy order) x y
  = ties_with (key_compare localeCompare sortBy) x y.
Proof.
  unfold ties_with, order_compare.
  destruct (String.eqb order "desc"); [|reflexivity].
  destruct (Z.eqb_spec (- key_compare localeCompare sortBy x y) 0),
           (Z.eqb_spec (key_compare localeCompare sortBy x y) 0);
    try reflexivity; lia.
Qed.

(** C8. On each of the keys [id], [name], [price] and [stock], in either
    order, the sort succeeds and returns the products rearranged in the
    requested order; it is stable: the products that tie with a given one
    on the key come out in the order they had in the collection; sorting
    the result again with the same parameters returns it unchanged, and
    the same request made twice receives the same sorted page; and
    when no two products tie on the key, the ascending sort reversed is
    the descending sort.  For [name] this rests on [localeCompare] being a
    consistent comparator. *)
Theorem sort_products_stable
    (sortBy order : string) (ps : list Product.t) :
  supported sortBy ->
  (sortBy = "name" -> consistent localeCompare) ->
  exists sorted,
    sort_products localeCompare sortBy order ps = Some sorted
    /\ Permutation sorted ps
    /\ StronglySorted
         (not_after (order_compare localeCompare sortBy order)) sorted
    /\ (forall x,
          filter (ties_with (key_compare localeCompare sortBy) x) sorted
          = filter (ties_with (key_compare localeCompare sortBy) x) ps)
    /\ sort_products localeCompare sortBy order sorted = Some sorted
    /\ (forall q w,
          products w = ps ->
          JS.or_string (Query.sortBy q) "id" = sortBy ->
          JS.or_string (Query.order q) "asc" = order ->
          fst (serve localeCompare ApiProductsSorted q w)
          = Json 200 (SortedPage (paginate sorted (page_of q) (limit_of q))
                        sortBy order)
          /\ fst (serve localeCompare ApiProductsSorted q
                    (snd (serve localeCompare ApiProductsSorted q w)))
             = fst (serve localeCompare ApiProductsSorted q w))
    /\ (no_ties (key_compare localeCompare sortBy) ps ->
        exists ascending,
          sort_products localeCompare sortBy "asc" ps = Some ascending
          /\ sort_products localeCompare sortBy "desc" ps
             = Some (rev ascending)).
Proof.
  intros Hs Hlc.
  pose proof (order_compare_consistent sortBy order Hs Hlc) as Hc.
  exists (stable_sort (order_compare localeCompare sortBy order) ps).
  split; [now apply sort_products_supported|].
  split; [apply stable_sort_perm|].
  split; [now apply stable_sort_ordered|].
  split.
  { intros x.
    rewrite <- !(filter_ext _ _ (order_compare_ties sortBy order x)).
    now apply stable_sort_stable. }
  split.
  { rewrite sort_products_supported by exact Hs.
    f_equal. now apply stable_sort_idempotent. }
  split.
  { intros q w Hps Hby Hord. split.
    - rewrite serve_sorted. cbv zeta. rewrite Hps, Hby, Hord.
      now rewrite sort_products_supported by exact Hs.
    - apply serve_reads_collections; apply serve_frame. }
  intros Hno.
  exists (stable_sort (key_compare localeCompare sortBy) ps).
  split; [now apply sort_products_supported|].
  rewrite sort_products_supported by exact Hs. f_equal.
  symmetry. apply stable_sort_reverse; [|exact Hno].
  now apply key_compare_consistent.
Qed.
End SortProducts.

Lemma sort_products_stable_witness :
  let localeCompare := fun a b : string =>
    Z.of_nat (String.length a) - Z.of_nat (String.length b) in
  let p := fun i name price => Product.make i name price "Books" 1 in
  let ps := [p 1 "ccc" 30; p 2 "a" 10; p 3 "bb" 20] in
  exists sorted,
    sort_products localeCompare "name" "desc" ps = Some sorted
    /\ sort_products localeCompare "name" "desc" sorted = Some sorted
    /\ exists ascending,
         sort_products localeCompare "name" "asc" ps = Some ascending
         /\ sort_products localeCompare "name" "desc" ps
            = Some (rev ascending).
Proof.
  intros localeCompare p ps.
  assert (supported "name") as Hs by (right; left; reflexivity).
  assert ("name" = "name" -> consistent localeCompare) as Hlc.
  { intros _. unfold localeCompare. split; intros; lia. }
  assert (no_ties (key_compare localeCompare "name") ps) as Hno.
  { unfold no_ties, ps. repeat constructor; vm_compute; discriminate. }
  destruct (sort_products_stable (rt := example_runtime) localeCompare
              "name" "desc" ps Hs Hlc)
    as (sorted & E & _ & _ & _ & Hagain & _ & Hrev).
  exists sorted. split; [exact E|]. split; [exact Hagain|].
  exact (Hrev Hno).
Defined.


(** ** Numeric parameters that parse to 0 or NaN *)



Lemma page_of_not_nan (q : Query.t) : page_of q <> JS.NaN.
Proof. apply or_default_not_nan. discriminate. Qed.

Lemma limit_of_not_nan (q : Query.t) : limit_of q <> JS.NaN.
Proof. apply or_default_not_nan. discriminate. Qed.

(** The three outcomes of the validation, for a page and a limit that are
    numbers. *)
Lemma validate_cases (page limit : JS.number) :
  page <> JS.NaN -> limit <> JS.NaN ->
  ((less_than 1 page \/ less_than 1 limit)
   /\ validate page limit = Some positive_error)
  \/ ((at_least 1 page /\ more_than 50 limit)
      /\ validate page limit = Some maximum_error)
  \/ ((at_least 1 page /\ at_least 1 limit /\ at_most 50 limit)
      /\ validate page limit = None).
Proof.
  intros Hp Hl.
  destruct (JS.lt page (JS.Num 1)) eqn:Ep.
  { apply lt_less_than in Ep. left.
    split; [now left|]. apply validate_not_positive. now left. }
  destruct (JS.lt limit (JS.Num 1)) eqn:El.
  { apply lt_less_than in El. left.
    split; [now right|]. apply validate_not_positive. now right. }
  apply lt_false_at_least in Ep; [|exact Hp].
  apply lt_false_at_least in El; [|exact Hl].
  right. destruct (JS.gt limit (JS.Num 50)) eqn:Em.
  - apply gt_more_than in Em. left.
    split; [now split|]. now apply validate_above_maximum.
  - apply gt_false_at_most in Em; [|exact Hl]. right.
    split; [now repeat split|]. now apply validate_accepts.
Qed.

Lemma error_does_not_succeed (status : Z) (message : string) :
  ~ succeeds (Json status (Error message)).
Proof.
  intros (b & E & Hb). injection E as _ <-. now apply (Hb message).
Qed.

(** The orders exclude each other. *)
Lemma less_than_not_at_least (k : Z) (n : JS.number) :
  less_than k n -> at_least k n -> False.
Proof. unfold less_than. destruct n; simpl; try tauto; lia. Qed.

Lemma more_than_not_at_most (k : Z) (n : JS.number) :
  more_than k n -> at_most k n -> False.
Proof. unfold more_than. destruct n; simpl; try tauto; lia. Qed.

Section Defaults.
Context {rt : JS.Runtime}.
Variable localeCompare : string -> string -> Z.


(** [/api/users] and [/api/products] answer a validation error, or the
    page. *)
Lemma serve_validated (e : endpoint) (q : Query.t) (w : world) :
  e = ApiUsers \/ e = ApiProducts ->
  match validate (page_of q) (limit_of q) with
  | Some rejection => fst (serve localeCompare e q w) = rejection
  | None => succeeds (fst (serve localeCompare e q w))
  end.
Proof.
  intros [-> | ->]; [rewrite serve_users|rewrite serve_products];
    destruct (validate (page_of q) (limit_of q)); cbn [fst];
    try reflexivity; (eexists; split; [reflexivity|discriminate]).
Qed.




End Defaults.


(** * Further properties of the engine *)

(** ** Pages of a sequence *)

Lemma firstn_add {A} (a b : nat) (l : list A) :
  firstn (a + b) l = (firstn a l ++ firstn b (skipn a l))%list.
Proof.
  rewrite <- (firstn_skipn a (firstn (a + b) l)) at 1.
  rewrite firstn_firstn, Nat.min_l by lia.
  now rewrite <- firstn_skipn_comm.
Qed.

(** The pieces of [len] elements taken one after the other are a prefix. *)
Lemma chunks_prefix {A} (len k : nat) (l : list A) :
  List.concat (map (fun i => firstn len (skipn (i * len) l)) (seq 0 k))
  = firstn (k * len) l.
Proof.
  induction k as [|k IH]; [reflexivity|].
  rewrite seq_S, map_app, concat_app, IH. simpl.
  rewrite app_nil_r.
  replace (len + k * len)%nat with (k * len + len)%nat by lia.
  now rewrite firstn_add.
Qed.

(** The data of a page, for any positive page and limit. *)
Lemma paginate_data {A} (sequence : list A) (page limit : Z) :
  is_array sequence -> 1 <= page -> 1 <= limit ->
  Page.data (paginate sequence (JS.Num page) (JS.Num limit))
  = firstn (Z.to_nat limit)
      (skipn (Z.to_nat (page - 1) * Z.to_nat limit) sequence).
Proof.
  intros Harray Hp Hl. rewrite paginate_exact by (assumption || lia).
  cbn [Page.data]. rewrite slice_range by nia.
  f_equal; [f_equal; lia|]. f_equal. rewrite <- Z2Nat.inj_mul by lia.
  reflexivity.
Qed.

Lemma paginate_data_length {A} (sequence : list A) (page limit : Z) :
  is_array sequence -> 1 <= page -> 1 <= limit ->
  JS.length (Page.data (paginate sequence (JS.Num page) (JS.Num limit)))
  = Z.min limit (Z.max 0 (JS.length sequence - (page - 1) * limit)).
Proof.
  intros Harray Hp Hl. rewrite paginate_exact by (assumption || lia).
  cbn [Page.data]. rewrite slice_length by nia.
  f_equal. lia.
Qed.

(** A limit that covers the whole sequence gives it in one page. *)
Lemma single_page {A} (sequence : list A) (limit : JS.number) :
  at_least 1 limit -> at_least (JS.length sequence) limit ->
  JS.length sequence <= 2 ^ 53 ->
  Page.data (paginate sequence (JS.Num 1) limit) = sequence
  /\ Page.next (paginate sequence (JS.Num 1) limit) = None
  /\ Page.previous (paginate sequence (JS.Num 1) limit) = None.
Proof.
  intros Hl Hlen Hsmall. unfold paginate.
  cbn [Page.data Page.next Page.previous].
  assert (JS.length sequence <= 2 ^ 53 /\ 0 <= JS.length sequence) as Hb
    by (unfold JS.length in *; lia).
  destruct limit as [l| | |]; cbn [at_least] in Hl, Hlen; try contradiction.
  - assert (at_least (JS.length sequence) (JS.mul (JS.Num 1) (JS.Num l)))
      as Hend.
    { cbn [JS.mul]. apply at_least_round; [rewrite two_53 in *|]; lia. }
    change (JS.sub (JS.Num 1) (JS.Num 1)) with (JS.Num 0).
    change (JS.mul (JS.Num 0) (JS.Num l)) with (JS.round (0 * l)).
    rewrite Z.mul_0_l. change (JS.round 0) with (JS.Num 0).
    rewrite (slice_all _ _ Hend).
    rewrite (at_least_not_lt _ _ _ Hend (Z.le_refl _)).
    now split.
  - change (JS.sub (JS.Num 1) (JS.Num 1)) with (JS.Num 0).
    split; [|now split].
    unfold JS.slice. cbn [JS.mul JS.clamp_index Z.eqb Z.ltb Z.compare].
    rewrite Z.sub_0_r, Z.max_l by lia.
    unfold JS.length. rewrite Nat2Z.id. apply firstn_all.
Qed.

(** X1. The pages partition the sequence: for a finite [limit >= 1], the
    data of the pages 1 to [totalPages], one after the other, are the
    sequence.  It is not so for the limit [Infinity], which the numeral of
    a number too large for a double gives on the endpoints without a
    maximum: page 1 then holds the whole sequence, and [totalPages] is
    0. *)
Theorem pages_partition {A} (sequence : list A) (limit : JS.number) :
  is_array sequence -> at_least 1 limit ->
  (forall l, limit = JS.Num l ->
     exists n,
       Page.totalPages (paginate sequence (JS.Num 1) limit) = JS.Num n
       /\ List.concat (all_pages sequence limit (Z.to_nat n)) = sequence)
  /\ (limit = JS.Infinity ->
      Page.totalPages (paginate sequence (JS.Num 1) limit) = JS.Num 0
      /\ Page.data (paginate sequence (JS.Num 1) limit) = sequence
      /\ List.concat (all_pages sequence limit 0) = []).
Proof.
  intros Harray Hl. split.
  - intros l ->. cbn [at_least] in Hl.
    destruct (ceil_div_spec (JS.length sequence) l) as (m & Hm & Hlo & Hhi);
      [lia|].
    exists m. split; [exact Hm|].
    unfold all_pages. rewrite <- seq_shift, map_map.
    rewrite (map_ext _ (fun i => firstn (Z.to_nat l)
                                   (skipn (i * Z.to_nat l) sequence))).
    + rewrite chunks_prefix. apply firstn_all2.
      unfold JS.length in Hhi. nia.
    + intros i. rewrite paginate_data by (assumption || lia).
      do 2 f_equal. lia.
  - intros ->. split; [reflexivity|]. split; [|reflexivity].
    apply single_page; try exact I.
    unfold is_array in Harray. rewrite two_53, two_32 in *. lia.
Qed.

Lemma pages_partition_witness :
  (exists n,
     Page.totalPages (paginate [1; 2; 3; 4; 5; 6; 7] (JS.Num 1) (JS.Num 3))
     = JS.Num n
     /\ List.concat (all_pages [1; 2; 3; 4; 5; 6; 7] (JS.Num 3) (Z.to_nat n))
        = [1; 2; 3; 4; 5; 6; 7])
  /\ Page.totalPages (paginate [1; 2; 3] (JS.Num 1) JS.Infinity) = JS.Num 0
  /\ Page.data (paginate [1; 2; 3] (JS.Num 1) JS.Infinity) = [1; 2; 3].
Proof.
  split.
  - exact (proj1 (pages_partition [1; 2; 3; 4; 5; 6; 7] (JS.Num 3)
                    ltac:(reflexivity) ltac:(cbn; lia)) 3 eq_refl).
  - destruct (proj2 (pages_partition [1; 2; 3] JS.Infinity
                       ltac:(reflexivity) I) eq_refl) as (Ht & Hd & _).
    split; [exact Ht|exact Hd].
Defined.

(** X2. Following [next] never leads to an empty page: on an array, when
    page [page] carries a [next] link, the link is [{page+1, limit}], page
    [page+1] holds at least one item, and its [previous] link points back
    to [{page, limit}]. *)
Theorem next_page_has_data {A} (sequence : list A) (page limit : Z) :
  is_array sequence -> 1 <= page -> 1 <= limit ->
  present (Page.next (paginate sequence (JS.Num page) (JS.Num limit))) ->
  Page.next (paginate sequence (JS.Num page) (JS.Num limit))
  = Some (Link.make (JS.Num (page + 1)) (JS.Num limit))
  /\ Page.data (paginate sequence (JS.Num (page + 1)) (JS.Num limit)) <> []
  /\ Page.previous (paginate sequence (JS.Num (page + 1)) (JS.Num limit))
     = Some (Link.make (JS.Num page) (JS.Num limit)).
Proof.
  intros Harray Hp Hl Hnext.
  assert (JS.length sequence < 4294967296) as Hsmall
    by (unfold is_array in Harray; now rewrite two_32 in Harray).
  assert (page * limit < JS.length sequence) as Hlt.
  { rewrite paginate_exact in Hnext by (assumption || lia).
    unfold present in Hnext; cbn [Page.next] in Hnext.
    destruct (Z.ltb_spec (page * limit) (JS.length sequence));
      [assumption|congruence]. }
  split; [|split].
  - rewrite paginate_exact by (assumption || lia). cbn [Page.next].
    destruct (Z.ltb_spec (page * limit) (JS.length sequence)); [|lia].
    rewrite add_exact; [reflexivity|]. rewrite two_53. nia.
  - intros E.
    pose proof (paginate_data_length sequence (page + 1) limit
                  Harray ltac:(lia) Hl) as Hlen.
    rewrite E in Hlen. unfold JS.length in Hlen at 1. simpl in Hlen.
    replace (page + 1 - 1) with page in Hlen by lia. lia.
  - rewrite paginate_exact by (assumption || lia). cbn [Page.previous].
    replace (page + 1 - 1) with page by lia.
    destruct (Z.ltb_spec 0 (page * limit)); [|nia].
    rewrite sub_exact; [|rewrite two_53; nia].
    now replace (page + 1 - 1) with page by lia.
Qed.

Lemma next_page_has_data_witness :
  Page.data (paginate [1; 2; 3; 4; 5] (JS.Num 2) (JS.Num 2)) <> []
  /\ Page.previous (paginate [1; 2; 3; 4; 5] (JS.Num 2) (JS.Num 2))
     = Some (Link.make (JS.Num 1) (JS.Num 2)).
Proof.
  destruct (next_page_has_data [1; 2; 3; 4; 5] 1 2 ltac:(reflexivity)
              ltac:(lia) ltac:(lia) ltac:(discriminate)) as (_ & Hd & Hp).
  split; [exact Hd|exact Hp].
Defined.

(** The product of two numbers that are both at least 0, or both at most
    0, is not below 0. *)
Lemma mul_not_negative (a b : JS.number) :
  (at_least 0 a /\ at_least 0 b) \/ (at_most 0 a /\ at_most 0 b) ->
  JS.lt (JS.mul a b) (JS.Num 0) = false.
Proof.
  assert (forall z, 0 <= z -> JS.lt (JS.round z) (JS.Num 0) = false) as Hr.
  { intros z Hz. apply (at_least_not_lt 0); [|lia].
    apply at_least_round; [rewrite two_53|]; lia. }
  destruct a as [x| | |], b as [y| | |]; cbn [at_least at_most JS.mul];
    intros [(Ha & Hb)|(Ha & Hb)]; try contradiction; try reflexivity;
    try (apply Hr; nia).
  - destruct (Z.eqb_spec x 0); [reflexivity|].
    destruct (Z.ltb_spec 0 x); [reflexivity|lia].
  - destruct (Z.eqb_spec x 0); [reflexivity|].
    destruct (Z.ltb_spec 0 x); [lia|reflexivity].
  - destruct (Z.eqb_spec y 0); [reflexivity|].
    destruct (Z.ltb_spec 0 y); [reflexivity|lia].
  - destruct (Z.eqb_spec y 0); [reflexivity|].
    destruct (Z.ltb_spec 0 y); [lia|reflexivity].
Qed.

(** X3. An empty result, such as a search that matches nobody, is one page
    of nothing: for any page and any limit other than 0, [total] and
    [totalPages] are 0 and [data] is empty, and there is no [next] when
    the page and the limit have the same sign. *)
Theorem paginate_empty {A} (page limit : JS.number) :
  limit <> JS.Num 0 -> limit <> JS.NaN ->
  Page.total (paginate (@nil A) page limit) = 0
  /\ Page.totalPages (paginate (@nil A) page limit) = JS.Num 0
  /\ Page.data (paginate (@nil A) page limit) = []
  /\ ((at_least 0 page /\ at_least 0 limit)
      \/ (at_most 0 page /\ at_most 0 limit) ->
      Page.next (paginate (@nil A) page limit) = None).
Proof.
  intros Hl Hnan. unfold paginate.
  cbn [Page.total Page.totalPages Page.data Page.next].
  split; [reflexivity|]. split; [|split].
  - unfold JS.ceil_div. destruct limit as [z| | |]; try reflexivity.
    + destruct (Z.eqb_spec z 0); [congruence|reflexivity].
    + contradiction.
  - unfold JS.slice. now rewrite skipn_nil, firstn_nil.
  - intros H. change (JS.length (@nil A)) with 0.
    now rewrite mul_not_negative.
Qed.

Lemma paginate_empty_witness :
  Page.totalPages (paginate (@nil nat) (JS.Num 1) (JS.Num 10)) = JS.Num 0
  /\ Page.next (paginate (@nil nat) (JS.Num 1) (JS.Num 10)) = None.
Proof.
  destruct (@paginate_empty nat (JS.Num 1) (JS.Num 10)
              ltac:(discriminate) ltac:(discriminate))
    as (_ & Ht & _ & Hn).
  split; [exact Ht|]. apply Hn. left. cbn. lia.
Defined.

(** ** Parameters that the unvalidated endpoints let through *)

(** [slice] with both indices negative counts them from the end. *)
Lemma slice_from_end {A} (l : list A) (a b : Z) :
  0 < b <= a -> a <= JS.length l ->
  JS.slice l (JS.Num (- a)) (JS.Num (- b))
  = firstn (Z.to_nat (a - b)) (skipn (Z.to_nat (JS.length l - a)) l).
Proof.
  intros Hab Ha. unfold JS.slice, JS.clamp_index.
  destruct (Z.ltb_spec (- a) 0); [|lia].
  destruct (Z.ltb_spec (- b) 0); [|lia].
  f_equal; f_equal; lia.
Qed.

(** [slice (0, -k)] drops the last [k] elements. *)
Lemma slice_drop_last {A} (l : list A) (k : Z) :
  0 < k ->
  JS.slice l (JS.Num 0) (JS.Num (- k))
  = firstn (Z.to_nat (JS.length l - k)) l.
Proof.
  intros Hk. unfold JS.slice, JS.clamp_index.
  destruct (Z.ltb_spec 0 0); [lia|].
  destruct (Z.ltb_spec (- k) 0); [|lia].
  unfold JS.length. rewrite Z.min_l by lia. simpl. f_equal. lia.
Qed.

Lemma filter_is_array {A} (f : A -> bool) (l : list A) :
  is_array l -> is_array (filter f l).
Proof.
  unfold is_array, JS.length. pose proof (filter_length_le f l). lia.
Qed.

Section Unvalidated.
Context {rt : JS.Runtime}.
Variable localeCompare : string -> string -> Z.

(** X4. [/api/users/search] does not validate [page]: a negative page is
    served, and counts pages from the end of the matches.  With
    [page = -k] and [limit >= 1], when the matches hold [(k+1) * limit]
    users or more, the data are the [limit] users that end [k * limit]
    before the end; [next] is always present and [previous] never.  The
    users are an array: fewer than 2^32. *)
Theorem negative_page_counts_from_end
    (q : Query.t) (w : world) (page limit : Z) :
  let matching := search_filter (JS.or_string (Query.q q) "") (users w) in
  is_array (users w) ->
  page_of q = JS.Num page -> limit_of q = JS.Num limit ->
  page <= -1 -> 1 <= limit ->
  (1 - page) * limit <= JS.length matching ->
  exists result,
    page_of_users (fst (serve localeCompare ApiUsersSearch q w)) = Some result
    /\ Page.data result
       = firstn (Z.to_nat limit)
           (skipn (Z.to_nat (JS.length matching - (1 - page) * limit))
              matching)
    /\ Page.next result
       = Some (Link.make (JS.Num (page + 1)) (JS.Num limit))
    /\ Page.previous result = None.
Proof.
  intros matching Harray Ep El Hp Hl Hlen.
  assert (is_array matching) as Hm by now apply filter_is_array.
  assert (JS.length matching < 4294967296) as Hsmall
    by (unfold is_array in Hm; now rewrite two_32 in Hm).
  rewrite serve_search. cbn [fst page_of_users].
  eexists; split; [reflexivity|].
  fold matching. rewrite Ep, El.
  rewrite paginate_exact by (assumption || lia).
  cbn [Page.data Page.next Page.previous].
  split; [|split].
  - replace ((page - 1) * limit) with (- ((1 - page) * limit)) by lia.
    replace (page * limit) with (- (- page * limit)) by lia.
    rewrite slice_from_end by nia.
    f_equal. f_equal. lia.
  - destruct (Z.ltb_spec (page * limit) (JS.length matching)).
    + rewrite add_exact; [reflexivity|]. rewrite two_53. nia.
    + unfold JS.length in *. nia.
  - destruct (Z.ltb_spec 0 ((page - 1) * limit)); [nia|reflexivity].
Qed.

(** X5. Nor does it validate [limit]: with [page = 1] and [limit = -k],
    the data are the matches without their last [k], [totalPages] is
    [- floor (total / k)], which is not positive, and [next] is
    [{2, -k}].  The users are an array. *)
Theorem negative_limit_drops_the_tail (q : Query.t) (w : world) (k : Z) :
  let matching := search_filter (JS.or_string (Query.q q) "") (users w) in
  is_array (users w) ->
  page_of q = JS.Num 1 -> limit_of q = JS.Num (- k) -> 1 <= k ->
  exists result,
    page_of_users (fst (serve localeCompare ApiUsersSearch q w)) = Some result
    /\ Page.data result
       = firstn (Z.to_nat (JS.length matching - k)) matching
    /\ Page.totalPages result = JS.Num (- (JS.length matching / k))
    /\ Page.next result = Some (Link.make (JS.Num 2) (JS.Num (- k)))
    /\ Page.previous result = None.
Proof.
  intros matching Harray Hp Hl Hk.
  assert (is_array matching) as Hm by now apply filter_is_array.
  rewrite serve_search. cbn [fst page_of_users].
  eexists; split; [reflexivity|].
  fold matching. rewrite Hp, Hl.
  rewrite paginate_exact by (assumption || lia).
  cbn [Page.data Page.totalPages Page.next Page.previous].
  replace ((1 - 1) * - k) with 0 by lia. rewrite Z.mul_1_l.
  split; [|split; [|split]].
  - apply slice_drop_last. lia.
  - unfold JS.ceil_div. destruct (Z.eqb_spec (- k) 0); [lia|].
    now rewrite Z.div_opp_opp by lia.
  - destruct (Z.ltb_spec (- k) (JS.length matching)); [reflexivity|].
    unfold JS.length in *. lia.
  - reflexivity.
Qed.

(** X7. The maximum of 50 is enforced on [/api/users] and [/api/products]
    only: [/api/users/search] and [/api/products/filter] serve any larger
    limit, [Infinity] included, and a limit that covers all the matches
    returns them in a single page, without [next] or [previous].  The
    users and the products are arrays. *)
Theorem search_and_filter_have_no_maximum (q : Query.t) (w : world) :
  let matching := search_filter (JS.or_string (Query.q q) "") (users w) in
  let filtered :=
    attribute_filter (Query.category q) (minPrice_of q) (maxPrice_of q)
      (products w) in
  is_array (users w) -> is_array (products w) ->
  more_than 50 (limit_of q) -> page_of q = JS.Num 1 ->
  (exists result,
     page_of_users (fst (serve localeCompare ApiUsersSearch q w))
     = Some result
     /\ (at_least (JS.length matching) (limit_of q) ->
         Page.data result = matching /\ Page.next result = None
         /\ Page.previous result = None))
  /\ (exists result,
        page_of_products (fst (serve localeCompare ApiProductsFilter q w))
        = Some result
        /\ (at_least (JS.length filtered) (limit_of q) ->
            Page.data result = filtered /\ Page.next result = None
            /\ Page.previous result = None)).
Proof.
  intros matching filtered Hu Hps Hl Hp.
  assert (at_least 1 (limit_of q)) as Hone
    by (apply (at_least_weaken 51); [exact Hl|lia]).
  assert (forall A (f : A -> bool) l,
            is_array l -> JS.length (filter f l) <= 2 ^ 53) as Hsmall.
  { intros A f l H. apply (filter_is_array f) in H.
    unfold is_array in H. rewrite two_53, two_32 in *. lia. }
  split.
  - rewrite serve_search. cbn [fst page_of_users].
    eexists; split; [reflexivity|].
    rewrite Hp. intros Hlen. apply single_page; try assumption.
    now apply Hsmall.
  - rewrite serve_filter. cbn [fst page_of_products].
    eexists; split; [reflexivity|].
    rewrite Hp. intros Hlen. apply single_page; try assumption.
    unfold filtered, attribute_filter.
    destruct (JS.truthy (Query.category q)); [destruct (Query.category q)|];
      try now apply Hsmall.
    apply Hsmall. now apply filter_is_array.
Qed.

(** X6. [/api/users] and [/api/products] serve a request exactly when,
    after the defaults, [page >= 1] and [1 <= limit <= 50]; the positivity
    error is sent exactly when [page < 1] or [limit < 1], also when the
    limit exceeds 50, and the maximum error exactly when [page >= 1] and
    [limit > 50]. *)
Theorem offset_validation (e : endpoint) (q : Query.t) (w : world) :
  e = ApiUsers \/ e = ApiProducts ->
  let r := fst (serve localeCompare e q w) in
  (succeeds r
   <-> at_least 1 (page_of q)
       /\ at_least 1 (limit_of q) /\ at_most 50 (limit_of q))
  /\ (r = positive_error
      <-> less_than 1 (page_of q) \/ less_than 1 (limit_of q))
  /\ (r = maximum_error
      <-> at_least 1 (page_of q) /\ more_than 50 (limit_of q)).
Proof.
  intros He r.
  pose proof (serve_validated localeCompare e q w He) as Hr. fold r in Hr.
  destruct (validate_cases (page_of q) (limit_of q)
              (page_of_not_nan q) (limit_of_not_nan q))
    as [[Hc Hv]|[[Hc Hv]|[Hc Hv]]]; rewrite Hv in Hr.
  - rewrite Hr. split; [|split].
    + split; [intros H; now apply error_does_not_succeed in H|].
      intros (Hp & Hl & _). exfalso.
      destruct Hc as [Hc|Hc]; eapply less_than_not_at_least; eassumption.
    + tauto.
    + split; [discriminate|]. intros (Hp & Hl). exfalso.
      destruct Hc as [Hc|Hc].
      * eapply less_than_not_at_least; eassumption.
      * apply (less_than_not_at_least 1 (limit_of q) Hc).
        apply (at_least_weaken 51); [exact Hl|lia].
  - rewrite Hr. destruct Hc as (Hp & Hl). split; [|split].
    + split; [intros H; now apply error_does_not_succeed in H|].
      intros (_ & _ & Hm). exfalso.
      eapply more_than_not_at_most; eassumption.
    + split; [discriminate|]. intros [H|H]; exfalso.
      * eapply less_than_not_at_least; eassumption.
      * apply (less_than_not_at_least 1 (limit_of q) H).
        apply (at_least_weaken 51); [exact Hl|lia].
    + tauto.
  - destruct Hc as (Hp & Hl & Hm). split; [|split].
    + tauto.
    + split.
      * intros E. rewrite E in Hr. now apply error_does_not_succeed in Hr.
      * intros [H|H]; exfalso; eapply less_than_not_at_least; eassumption.
    + split.
      * intros E. rewrite E in Hr. now apply error_does_not_succeed in Hr.
      * intros (_ & H). exfalso.
        eapply more_than_not_at_most; eassumption.
Qed.
End Unvalidated.

Lemma negative_page_counts_from_end_witness :
  let u := fun i => User.make i "User" "user@example.com" 30 "Chicago" in
  let w := World [u 1; u 2; u 3; u 4; u 5] [] [] in
  let q := page_limit (Some "-1") (Some "2") in
  exists result,
    page_of_users
      (fst (serve (rt := example_runtime) (fun _ _ => 0) ApiUsersSearch q w))
    = Some result
    /\ Page.data result = [u 2; u 3]
    /\ Page.next result = Some (Link.make (JS.Num 0) (JS.Num 2)).
Proof.
  intros u w q.
  destruct (negative_page_counts_from_end (rt := example_runtime)
              (fun _ _ => 0) q w (-1) 2
              ltac:(reflexivity) eq_refl eq_refl
              ltac:(lia) ltac:(lia) ltac:(vm_compute; discriminate))
    as (result & E & Hd & Hn & _).
  exists result. split; [exact E|]. split; [exact Hd|exact Hn].
Defined.

Lemma negative_limit_drops_the_tail_witness :
  let u := fun i => User.make i "User" "user@example.com" 30 "Chicago" in
  let w := World [u 1; u 2; u 3; u 4; u 5] [] [] in
  let q := page_limit None (Some "-2") in
  exists result,
    page_of_users
      (fst (serve (rt := example_runtime) (fun _ _ => 0) ApiUsersSearch q w))
    = Some result
    /\ Page.data result = [u 1; u 2; u 3]
    /\ Page.totalPages result = JS.Num (-2).
Proof.
  intros u w q.
  destruct (negative_limit_drops_the_tail (rt := example_runtime)
              (fun _ _ => 0) q w 2
              ltac:(reflexivity) eq_refl eq_refl ltac:(lia))
    as (result & E & Hd & Ht & _).
  exists result. split; [exact E|]. split; [exact Hd|exact Ht].
Defined.

Lemma search_and_filter_have_no_maximum_witness :
  let u := fun i => User.make i "User" "user@example.com" 30 "Chicago" in
  let w := World [u 1; u 2; u 3] [] [] in
  let q := page_limit None (Some "1000") in
  exists result,
    page_of_users
      (fst (serve (rt := example_runtime) (fun _ _ => 0) ApiUsersSearch q w))
    = Some result
    /\ Page.data result = [u 1; u 2; u 3] /\ Page.next result = None.
Proof.
  intros u w q.
  destruct (search_and_filter_have_no_maximum (rt := example_runtime)
              (fun _ _ => 0) q w
              ltac:(reflexivity) ltac:(reflexivity)
              ltac:(vm_compute; discriminate) eq_refl)
    as ((result & E & H) & _).
  exists result. split; [exact E|].
  destruct (H ltac:(vm_compute; discriminate)) as (Hd & Hn & _).
  split; [exact Hd|exact Hn].
Defined.

Lemma offset_validation_witness :
  succeeds (fst (serve (rt := example_runtime) (fun _ _ => 0) ApiUsers
                   (page_limit (Some "2") (Some "50")) (World [] [] []))).
Proof.
  apply (offset_validation (rt := example_runtime) (fun _ _ => 0) ApiUsers
           (page_limit (Some "2") (Some "50")) (World [] [] [])
           (or_introl eq_refl)).
  vm_compute. split; [|split]; discriminate.
Defined.

(** ** Reading numerals *)

Lemma read_digits_stop (radix : Z) (acc : option Z) (rest : string) :
  ends_numeral rest -> JS.read_digits radix acc rest = acc.
Proof.
  destruct rest as [|c rest]; simpl; [reflexivity|]. now intros ->.
Qed.

Ltac eval_digit :=
  match goal with
  | |- context [JS.digit_value ?c] =>
      let v := eval vm_compute in (JS.digit_value c) in
      change (JS.digit_value c) with v
  end.

Lemma read_digits_numeral (d : Decimal.uint) (a : Z) (rest : string) :
  ends_numeral rest ->
  JS.read_digits 10 (Some a) (NilEmpty.string_of_uint d ++ rest)
  = Some (numeral_value a d).
Proof.
  intros Hrest. revert a.
  induction d as [|d IH|d IH|d IH|d IH|d IH|d IH|d IH|d IH|d IH|d IH];
    intros a;
    [now apply read_digits_stop|..];
    cbn [NilEmpty.string_of_uint append numeral_value];
    rewrite <- IH; cbn [JS.read_digits]; eval_digit; cbv iota beta;
    match goal with
    | |- context [?x <? 10] => change (x <? 10) with true
    end;
    cbv iota; do 2 f_equal; lia.
Qed.

(** The value of a numeral is the one of the standard library. *)
Lemma numeral_value_nat (d : Decimal.uint) (a : nat) :
  numeral_value (Z.of_nat a) d = Z.of_nat (Nat.of_uint_acc d a).
Proof.
  revert a.
  induction d as [|d IH|d IH|d IH|d IH|d IH|d IH|d IH|d IH|d IH|d IH];
    intros a; cbn [numeral_value Nat.of_uint_acc]; [reflexivity|..];
    rewrite <- IH, Nat.tail_mul_spec; f_equal; lia.
Qed.

Lemma numeral_value_show (n : nat) :
  numeral_value 0 (Nat.to_uint n) = Z.of_nat n.
Proof.
  change 0 with (Z.of_nat 0). rewrite numeral_value_nat.
  change (Nat.of_uint_acc (Nat.to_uint n) 0) with (Nat.of_uint (Nat.to_uint n)).
  now rewrite Unsigned.of_to.
Qed.

Lemma to_uint_not_nil (n : nat) : Nat.to_uint n <> Decimal.Nil.
Proof.
  intros E. pose proof (Unsigned.of_to n) as H. rewrite E in H.
  simpl in H. subst n. discriminate E.
Qed.

Lemma read_unsigned_numeral (d : Decimal.uint) (rest : string) :
  d <> Decimal.Nil -> ends_numeral rest ->
  JS.read_unsigned (NilEmpty.string_of_uint d ++ rest)
  = Some (numeral_value 0 d).
Proof.
  intros Hd Hrest.
  assert (JS.read_digits 10 None (NilEmpty.string_of_uint d ++ rest)
          = Some (numeral_value 0 d)) as Hread.
  { destruct d as [|u|u|u|u|u|u|u|u|u|u]; [contradiction|..].
    - exact (read_digits_numeral u 0 rest Hrest).
    - exact (read_digits_numeral u 1 rest Hrest).
    - exact (read_digits_numeral u 2 rest Hrest).
    - exact (read_digits_numeral u 3 rest Hrest).
    - exact (read_digits_numeral u 4 rest Hrest).
    - exact (read_digits_numeral u 5 rest Hrest).
    - exact (read_digits_numeral u 6 rest Hrest).
    - exact (read_digits_numeral u 7 rest Hrest).
    - exact (read_digits_numeral u 8 rest Hrest).
    - exact (read_digits_numeral u 9 rest Hrest). }
  rewrite <- Hread. unfold JS.read_unsigned.
  destruct d as [|u|u|u|u|u|u|u|u|u|u]; try reflexivity;
    [contradiction|].
  cbn [NilEmpty.string_of_uint append].
  destruct u; try reflexivity.
  cbn [NilEmpty.string_of_uint append].
  destruct rest as [|c rest]; [reflexivity|].
  simpl in Hrest.
  destruct c as [[] [] [] [] [] [] [] []];
    try discriminate Hrest; reflexivity.
Qed.

(** No white space is skipped before an ASCII character that is none. *)
Lemma skip_spaces_ascii (c : ascii) (s : string) :
  JS.is_space c = false -> JS.is_ascii c = true ->
  JS.skip_spaces (String c s) = String c s.
Proof.
  intros Hs Ha. unfold JS.is_ascii in Ha. apply Nat.ltb_lt in Ha.
  assert (forall k, (128 <= k)%nat -> (nat_of_ascii c =? k)%nat = false)
    as Hk by (intros k Hle; apply Nat.eqb_neq; lia).
  cbn [JS.skip_spaces]. rewrite Hs.
  destruct s as [|c2 s2]; [reflexivity|].
  unfold JS.is_space2. rewrite Hk by lia. cbn [andb].
  destruct s2 as [|c3 s3]; [reflexivity|].
  unfold JS.is_space3. cbv zeta. rewrite !Hk by lia. reflexivity.
Qed.

Lemma skip_spaces_numeral (d : Decimal.uint) (rest : string) :
  d <> Decimal.Nil ->
  JS.skip_spaces (NilEmpty.string_of_uint d ++ rest)
  = NilEmpty.string_of_uint d ++ rest.
Proof.
  intros Hd.
  destruct d; [contradiction|..]; cbn [NilEmpty.string_of_uint append];
    now apply skip_spaces_ascii.
Qed.

Lemma read_integer_numeral (d : Decimal.uint) (rest : string) :
  d <> Decimal.Nil -> ends_numeral rest ->
  JS.read_integer (NilEmpty.string_of_uint d ++ rest)
  = Some (numeral_value 0 d)
  /\ JS.read_integer ("-" ++ NilEmpty.string_of_uint d ++ rest)
     = Some (- numeral_value 0 d).
Proof.
  intros Hd Hrest. pose proof (read_unsigned_numeral d rest Hd Hrest) as Hu.
  split.
  - unfold JS.read_integer. rewrite skip_spaces_numeral by exact Hd.
    rewrite <- Hu. destruct d; [contradiction|..]; reflexivity.
  - unfold JS.read_integer. cbn [append].
    rewrite skip_spaces_ascii by reflexivity. now rewrite Hu.
Qed.

Lemma append_empty (s : string) : s ++ "" = s.
Proof.
  induction s as [|c s IH]; simpl; [reflexivity|]. now rewrite IH.
Qed.

(** The parse of a numeral, and of a numeral after a minus sign. *)
Lemma parseInt_numeral_text (d : Decimal.uint) (rest : string) :
  d <> Decimal.Nil -> ends_numeral rest ->
  JS.parseInt (numeral_text d rest) = JS.round (numeral_value 0 d)
  /\ JS.parseInt (Some ("-" ++ NilEmpty.string_of_uint d ++ rest))
     = JS.round (- numeral_value 0 d).
Proof.
  intros Hd Hrest. destruct (read_integer_numeral d rest Hd Hrest) as [E E'].
  unfold numeral_text, JS.parseInt, JS.parseInt_string.
  now rewrite E, E'.
Qed.

Lemma parseInt_show (n : nat) (rest : string) :
  ends_numeral rest ->
  JS.parseInt (Some (JS.show n ++ rest)) = JS.round (Z.of_nat n)
  /\ JS.parseInt (Some ("-" ++ JS.show n ++ rest))
     = JS.round (- Z.of_nat n).
Proof.
  intros Hrest.
  destruct (parseInt_numeral_text (Nat.to_uint n) rest
              (to_uint_not_nil n) Hrest) as (Hu & Hp).
  rewrite numeral_value_show in Hu, Hp. now split.
Qed.

(** A number that is at least 1 is not replaced by a default. *)
Lemma or_default_positive (n d : JS.number) :
  at_least 1 n -> JS.or_default n d = n.
Proof.
  destruct n as [z| | |]; cbn [at_least JS.or_default]; try tauto.
  intros Hz. destruct (Z.eqb_spec z 0); [lia|reflexivity].
Qed.

Lemma or_default_negative (n d : JS.number) :
  at_most (-1) n -> JS.or_default n d = n.
Proof.
  destruct n as [z| | |]; cbn [at_most JS.or_default]; try tauto.
  intros Hz. destruct (Z.eqb_spec z 0); [lia|reflexivity].
Qed.

(** Rounding overflows from 2^1024. *)
Lemma round_overflow (z : Z) : 2 ^ 1024 <= z -> JS.round z = JS.Infinity.
Proof.
  intros Hz.
  assert (2 ^ 53 < 2 ^ 1024) as Hlt by (apply Z.pow_lt_mono_r; lia).
  assert (0 < z) as Hpos by lia.
  unfold JS.round. rewrite (Z.abs_eq z) by lia.
  destruct (Z.ltb_spec z (2 ^ 53)); [lia|].
  assert (1024 <= Z.log2 z) as Hlog by (apply Z.log2_le_pow2; lia).
  set (e := Z.log2 z - 52).
  assert (0 < 2 ^ e) as Hpe by (apply Z.pow_pos_nonneg; lia).
  assert (2 ^ 52 * 2 ^ e <= z) as Hlow.
  { rewrite <- Z.pow_add_r by lia.
    replace (52 + e) with (Z.log2 z) by (unfold e; lia).
    apply Z.log2_spec. lia. }
  assert (2 ^ 52 <= z / 2 ^ e) as Hq
    by (apply Z.div_le_lower_bound; lia).
  assert (2 ^ 1024 <= 2 ^ 52 * 2 ^ e) as Hbig.
  { rewrite <- Z.pow_add_r by lia. apply Z.pow_le_mono_r; lia. }
  cbv zeta.
  match goal with
  | |- context [2 ^ 1024 <=? ?m] =>
      destruct (Z.leb_spec (2 ^ 1024) m) as [_|Hm]
  end.
  - destruct (Z.ltb_spec z 0); [lia|reflexivity].
  - exfalso. revert Hm.
    destruct (_ || _); intros Hm;
      apply (Z.lt_irrefl (2 ^ 1024));
      eapply Z.le_lt_trans; [exact Hbig| |exact Hbig|];
      (eapply Z.le_lt_trans; [|exact Hm]);
      apply Z.mul_le_mono_nonneg_r; lia.
Qed.

Section Numerals.
Context {rt : JS.Runtime}.
Variable localeCompare : string -> string -> Z.

(** X8. The handlers read a leading decimal numeral of [page], [limit] and
    [cursor] and ignore what follows it, text that is empty or starts with
    a character other than a digit or a letter: [page=2.5] is page 2 and
    [limit=20,5] is limit 20.  The parameter becomes the double nearest to
    the integer that the numeral denotes: the integer itself up to 2^53,
    and [Infinity] from 10^309; a numeral that denotes 0 gives the
    default.  [/api/users] serves the page so read. *)
Theorem numeral_parameters (d : Decimal.uint) (rest : string) :
  d <> Decimal.Nil -> ends_numeral rest ->
  let value := numeral_value 0 d in
  let q := page_limit (numeral_text d rest) None in
  (1 <= value ->
   page_of q = JS.round value
   /\ limit_of (page_limit None (numeral_text d rest)) = JS.round value
   /\ cursor_of (cursor_limit (numeral_text d rest) None) = JS.round value
   /\ forall w, fst (serve localeCompare ApiUsers q w)
                = Json 200 (UsersPage (paginate (users w) (JS.round value)
                                         (JS.Num 10))))
  /\ (1 <= value <= 2 ^ 53 -> page_of q = JS.Num value)
  /\ (10 ^ 309 <= value -> page_of q = JS.Infinity)
  /\ (value = 0 -> page_of q = JS.Num 1).
Proof.
  intros Hd Hrest value q.
  destruct (parseInt_numeral_text d rest Hd Hrest) as [E _].
  fold value in E.
  assert (1 <= value -> at_least 1 (JS.round value)) as Hone.
  { intros Hv. apply at_least_round; [rewrite two_53|]; lia. }
  assert (1 <= value -> page_of q = JS.round value) as Hpage.
  { intros Hv. unfold page_of, q, page_limit. cbn [Query.page].
    rewrite E. now apply or_default_positive, Hone. }
  split; [|split; [|split]].
  - intros Hv. split; [now apply Hpage|]. split; [|split].
    + unfold limit_of, page_limit. cbn [Query.limit].
      rewrite E. now apply or_default_positive, Hone.
    + unfold cursor_of, cursor_limit. cbn [Query.cursor].
      rewrite E. now apply or_default_positive, Hone.
    + intros w. rewrite serve_users, (Hpage Hv).
      change (limit_of q) with (JS.Num 10).
      rewrite validate_accepts; [reflexivity|now apply Hone| |];
        cbn [at_least at_most]; lia.
  - intros Hv. rewrite Hpage by lia. apply round_exact. lia.
  - intros Hv. rewrite Hpage.
    + apply round_overflow. eapply Z.le_trans; [|exact Hv].
      vm_compute. discriminate.
    + eapply Z.le_trans; [|exact Hv]. vm_compute. discriminate.
  - intros Hv. unfold page_of, q, page_limit. cbn [Query.page].
    rewrite E, Hv. reflexivity.
Qed.

(** X9. A negative page or limit is always rejected on [/api/users] and
    [/api/products]: for every [n >= 1], [page=-n] and [limit=-n] are
    answered with the positivity error, whatever the other parameter. *)
Theorem negative_page_or_limit_rejected
    (e : endpoint) (n : nat) (other : option string) (w : world) :
  e = ApiUsers \/ e = ApiProducts -> n <> O ->
  fst (serve localeCompare e
         (page_limit (Some ("-" ++ JS.show n)) other) w) = positive_error
  /\ fst (serve localeCompare e
            (page_limit other (Some ("-" ++ JS.show n))) w) = positive_error.
Proof.
  intros He Hn.
  destruct (parseInt_show n "" I) as [_ E]. rewrite append_empty in E.
  assert (forall d,
            less_than 1
              (JS.or_default (JS.parseInt (Some ("-" ++ JS.show n))) d))
    as Hneg.
  { intros d. rewrite E.
    assert (at_most (-1) (JS.round (- Z.of_nat n))) as Hm
      by (apply at_most_round; [rewrite two_53|]; lia).
    rewrite or_default_negative by exact Hm.
    apply (at_most_weaken (-1)); [exact Hm|lia]. }
  split.
  - destruct He as [-> | ->];
      [rewrite serve_users|rewrite serve_products];
      unfold page_of, page_limit at 1; cbn [Query.page];
      rewrite validate_not_positive by (left; apply Hneg); reflexivity.
  - destruct He as [-> | ->];
      [rewrite serve_users|rewrite serve_products];
      unfold limit_of, page_limit at 2; cbn [Query.limit];
      rewrite validate_not_positive by (right; apply Hneg); reflexivity.
Qed.
End Numerals.

Lemma numeral_parameters_witness :
  let q := page_limit (Some "9007199254740993.5") None in
  page_of q = JS.Num 9007199254740992
  /\ forall w,
       fst (serve (rt := example_runtime) (fun _ _ => 0) ApiUsers q w)
       = Json 200 (UsersPage (paginate (users w) (JS.Num 9007199254740992)
                                (JS.Num 10))).
Proof.
  intros q.
  destruct (numeral_parameters (rt := example_runtime) (fun _ _ => 0)
              (Pos.to_uint 9007199254740993) ".5"
              ltac:(vm_compute; discriminate) eq_refl)
    as (H & _).
  destruct (H ltac:(vm_compute; discriminate)) as (Hp & _ & _ & Hs).
  split; [exact Hp|exact Hs].
Defined.

Lemma negative_page_or_limit_rejected_witness :
  fst (serve (rt := example_runtime) (fun _ _ => 0) ApiUsers
         (page_limit (Some ("-" ++ JS.show 7)) (Some "10")) (World [] [] []))
  = positive_error.
Proof.
  apply (negative_page_or_limit_rejected (rt := example_runtime)
           (fun _ _ => 0) ApiUsers 7
           (Some "10") (World [] [] []) (or_introl eq_refl)).
  discriminate.
Defined.

(** ** Following the cursor *)

Lemma StronglySorted_app_inv {A} (R : A -> A -> Prop) (l1 l2 : list A) :
  StronglySorted R (l1 ++ l2)%list ->
  StronglySorted R l1 /\ StronglySorted R l2
  /\ forall x y, In x l1 -> In y l2 -> R x y.
Proof.
  induction l1 as [|a l1 IH]; simpl; intros H.
  - split; [constructor|]. split; [exact H|]. intros x y [].
  - inversion H as [|? ? Hs Ha]; subst.
    destruct (IH Hs) as (H1 & H2 & H12).
    rewrite Forall_forall in Ha. split; [|split; [exact H2|]].
    + constructor; [exact H1|]. rewrite Forall_forall. intros x Hx.
      apply Ha. apply in_or_app. now left.
    + intros x y [<-|Hx] Hy.
      * apply Ha. apply in_or_app. now right.
      * now apply H12.
Qed.

Lemma filter_none {A} (f : A -> bool) (l : list A) :
  (forall x, In x l -> f x = false) -> filter f l = [].
Proof.
  induction l as [|a l IH]; simpl; intros H; [reflexivity|].
  rewrite (H a) by now left. apply IH. intros x Hx. apply H. now right.
Qed.

Lemma filter_every {A} (f : A -> bool) (l : list A) :
  (forall x, In x l -> f x = true) -> filter f l = l.
Proof.
  induction l as [|a l IH]; simpl; intros H; [reflexivity|].
  rewrite (H a) by now left. f_equal. apply IH. intros x Hx. apply H.
  now right.
Qed.

Lemma filter_filter_implied {A} (f g : A -> bool) (l : list A) :
  (forall x, f x = true -> g x = true) ->
  filter f (filter g l) = filter f l.
Proof.
  intros H. induction l as [|a l IH]; simpl; [reflexivity|].
  destruct (g a) eqn:Eg; simpl; [now rewrite IH|].
  destruct (f a) eqn:Ef; [|exact IH].
  apply H in Ef. congruence.
Qed.

Lemma last_of_nonempty {A} (l : list A) (u : A) :
  nth_error l (List.length l - 1) = Some u ->
  exists front, l = (front ++ [u])%list.
Proof.
  intros H. destruct l as [|a l] using rev_ind; [discriminate H|].
  rewrite nth_error_last in H. injection H as <-. now exists l.
Qed.

Lemma gt_num (x y : Z) : JS.gt (JS.Num x) (JS.Num y) = (y <? x).
Proof. reflexivity. Qed.

(** An id above one that is after the cursor is after the cursor. *)
Lemma gt_above (x y : Z) (cursor : JS.number) :
  x <= y -> JS.gt (JS.Num x) cursor = true -> JS.gt (JS.Num y) cursor = true.
Proof.
  unfold JS.gt. destruct cursor as [c| | |]; cbn [JS.lt]; try tauto.
  rewrite !Z.ltb_lt. lia.
Qed.

(** In an ascending collection, the users after the last one of a prefix
    are the rest of the collection. *)
Lemma after_last_of_prefix (front rest : list User.t) (u : User.t) :
  ascending (front ++ u :: rest)%list ->
  after (JS.Num (User.id u)) (front ++ u :: rest)%list = rest.
Proof.
  intros Hasc. apply StronglySorted_app_inv in Hasc.
  destruct Hasc as (_ & Hur & Hfront).
  inversion Hur as [|? ? _ Hrest]; subst. rewrite Forall_forall in Hrest.
  unfold after. rewrite filter_app. cbn [filter].
  rewrite gt_num, Z.ltb_irrefl.
  rewrite filter_none, filter_every; [reflexivity| |].
  - intros x Hx. rewrite gt_num. apply Z.ltb_lt. now apply Hrest.
  - intros x Hx. rewrite gt_num. apply Z.ltb_ge.
    specialize (Hfront x u Hx (or_introl eq_refl)). simpl in Hfront. lia.
Qed.

(** X10. Following the cursor visits the collection in order and without
    gaps: on a collection in ascending order of id, when a page comes with
    [hasMore] true and [nextCursor = n], the users after [n] are the users
    that the page left, so the request with [cursor = n] and the same limit
    returns the next [limit] of them, and the two pages together are the
    first [2 * limit] users after the first cursor. *)
Theorem cursor_continuation
    (us data : list User.t) (cursor : JS.number) (limit n : Z) :
  ascending us -> 1 <= limit ->
  cursor_paginate us cursor (JS.Num limit) = CursorPage data (Some n) true ->
  after (JS.Num n) us = skipn (Z.to_nat limit) (after cursor us)
  /\ exists data' nextCursor hasMore,
       cursor_paginate us (JS.Num n) (JS.Num limit)
       = CursorPage data' nextCursor hasMore
       /\ (data ++ data')%list
          = firstn (Z.to_nat limit + Z.to_nat limit) (after cursor us).
Proof.
  intros Hasc Hl Hpage. unfold cursor_paginate in Hpage.
  fold (after cursor us) in Hpage. rewrite slice_prefix in Hpage by lia.
  injection Hpage as Hdata Hnext Hmore.
  rewrite Hmore, Hdata in Hnext.
  destruct (0 <? JS.length data); [|discriminate Hnext].
  destruct (nth_error data (List.length data - 1)) as [u|] eqn:Eu;
    [|discriminate Hnext].
  injection Hnext as <-.
  destruct (last_of_nonempty _ _ Eu) as (front & Efront).
  assert (after cursor us = (front ++ u :: skipn (Z.to_nat limit)
                                             (after cursor us))%list) as Hsplit.
  { rewrite <- (firstn_skipn (Z.to_nat limit) (after cursor us)) at 1.
    rewrite Hdata, Efront, <- app_assoc. reflexivity. }
  assert (after (JS.Num (User.id u)) us
          = skipn (Z.to_nat limit) (after cursor us)) as Hafter.
  { assert (In u (after cursor us)) as Hin.
    { rewrite Hsplit. apply in_or_app. right. now left. }
    unfold after in Hin. apply filter_In in Hin. destruct Hin as [_ Hu].
    transitivity (after (JS.Num (User.id u)) (after cursor us)).
    - unfold after. symmetry. apply filter_filter_implied.
      intros x Hx. rewrite gt_num in Hx. apply Z.ltb_lt in Hx.
      apply (gt_above (User.id u)); [lia|exact Hu].
    - rewrite Hsplit at 1. apply after_last_of_prefix.
      rewrite <- Hsplit. now apply StronglySorted_filter. }
  split; [exact Hafter|].
  unfold cursor_paginate. fold (after (JS.Num (User.id u)) us).
  rewrite slice_prefix by lia.
  eexists _, _, _. split; [reflexivity|].
  now rewrite Hafter, firstn_add, Hdata.
Qed.

Lemma cursor_continuation_witness :
  let u := fun i => User.make i "User" "user@example.com" 30 "Chicago" in
  let us := [u 1; u 2; u 3; u 4; u 5] in
  after (JS.Num 2) us = [u 3; u 4; u 5]
  /\ exists data' nextCursor hasMore,
       cursor_paginate us (JS.Num 2) (JS.Num 2)
       = CursorPage data' nextCursor hasMore
       /\ ([u 1; u 2] ++ data')%list = [u 1; u 2; u 3; u 4].
Proof.
  intros u us.
  assert (ascending us) as Hasc.
  { unfold ascending, us. repeat constructor; simpl; lia. }
  exact (cursor_continuation us [u 1; u 2] (JS.Num 0) 2 2 Hasc ltac:(lia)
           eq_refl).
Defined.

(** X11. The cursor endpoint does not validate [limit] either: with
    [limit = -k] the data are the users after the cursor without their last
    [k], and [hasMore] is true whatever is left, also when the data are
    empty, in which case [nextCursor] is null; with the limit [-Infinity]
    nothing is left and [hasMore] is true. *)
Theorem cursor_negative_limit
    (us : list User.t) (cursor : JS.number) (k : Z) :
  1 <= k ->
  let data :=
    firstn (Z.to_nat (JS.length (after cursor us) - k)) (after cursor us) in
  (exists nextCursor,
     cursor_paginate us cursor (JS.Num (- k)) = CursorPage data nextCursor true
     /\ (data = [] -> nextCursor = None)
     /\ (forall front u, data = (front ++ [u])%list ->
         nextCursor = Some (User.id u)))
  /\ cursor_paginate us cursor JS.NegInfinity = CursorPage [] None true.
Proof.
  intros Hk data. split.
  - unfold cursor_paginate. fold (after cursor us).
    rewrite slice_drop_last by lia. fold data.
    rewrite gt_num.
    assert ((- k <? JS.length (after cursor us)) = true) as ->.
    { apply Z.ltb_lt. unfold JS.length. lia. }
    eexists. split; [reflexivity|]. split.
    + intros ->. reflexivity.
    + intros front u ->. rewrite nth_error_last.
      unfold JS.length. rewrite length_app. simpl.
      destruct (Z.ltb_spec 0 (Z.of_nat (List.length front + 1)));
        [reflexivity|lia].
  - unfold cursor_paginate. fold (after cursor us).
    assert (JS.slice (after cursor us) (JS.Num 0) JS.NegInfinity = [])
      as ->.
    { unfold JS.slice, JS.clamp_index. change (0 <? 0) with false.
      cbv iota. rewrite Z.min_l by (unfold JS.length; lia). reflexivity. }
    reflexivity.
Qed.

Lemma cursor_negative_limit_witness :
  let u := fun i => User.make i "User" "user@example.com" 30 "Chicago" in
  exists nextCursor,
    cursor_paginate [u 1; u 2; u 3] (JS.Num 3) (JS.Num (- 1))
    = CursorPage [] nextCursor true
    /\ nextCursor = None.
Proof.
  intros u.
  destruct (cursor_negative_limit [u 1; u 2; u 3] (JS.Num 3) 1 ltac:(lia))
    as ((nextCursor & E & Hnil & _) & _).
  exists nextCursor. split; [exact E|]. now apply Hnil.
Defined.

(** ** The mock collections *)

Lemma after_generated (f : nat -> User.t) (cursor : Z) :
  (forall i, User.id (f i) = Z.of_nat (i + 1)) ->
  forall n s,
    after (JS.Num cursor) (map f (seq s n))
    = skipn (Z.to_nat cursor - s) (map f (seq s n)).
Proof.
  intros Hid. unfold after.
  induction n as [|n IH]; intros s; cbn [seq map filter].
  - now rewrite skipn_nil.
  - rewrite gt_num, Hid. destruct (Z.ltb_spec cursor (Z.of_nat (s + 1))).
    + replace (Z.to_nat cursor - s)%nat with O by lia. cbn [skipn].
      f_equal. rewrite IH.
      replace (Z.to_nat cursor - S s)%nat with O by lia. reflexivity.
    + rewrite IH.
      replace (Z.to_nat cursor - s)%nat
        with (S (Z.to_nat cursor - S s)) by lia.
      reflexivity.
Qed.

Lemma mock_users_length (r_age r_city : nat -> nat) :
  List.length (mock_users r_age r_city) = 100%nat.
Proof. unfold mock_users. rewrite length_map, length_seq. reflexivity.
Qed.

Lemma mock_users_is_array (r_age r_city : nat -> nat) :
  is_array (mock_users r_age r_city).
Proof.
  unfold is_array, JS.length. rewrite mock_users_length. reflexivity.
Qed.

Lemma after_mock_users (r_age r_city : nat -> nat) (cursor : Z) :
  after (JS.Num cursor) (mock_users r_age r_city)
  = skipn (Z.to_nat cursor) (mock_users r_age r_city).
Proof.
  unfold mock_users. rewrite after_generated.
  - rewrite Nat.sub_0_r. reflexivity.
  - intros i. reflexivity.
Qed.

(** The two ways of paging agree on a collection in which the users after
    a cursor are those past that position. *)
Lemma cursor_agrees_when_numbered (us : list User.t) (page limit : Z) :
  is_array us ->
  (forall cursor, after (JS.Num cursor) us = skipn (Z.to_nat cursor) us) ->
  1 <= page -> 1 <= limit ->
  exists nextCursor hasMore,
    cursor_paginate us (JS.Num ((page - 1) * limit)) (JS.Num limit)
    = CursorPage (Page.data (paginate us (JS.Num page) (JS.Num limit)))
        nextCursor hasMore
    /\ (hasMore = true
        <-> present (Page.next (paginate us (JS.Num page) (JS.Num limit)))).
Proof.
  intros Harray Hafter Hp Hl.
  rewrite paginate_exact by (assumption || lia).
  cbn [Page.data Page.next].
  unfold cursor_paginate. fold (after (JS.Num ((page - 1) * limit)) us).
  rewrite slice_prefix by lia. rewrite Hafter.
  replace (JS.slice us (JS.Num ((page - 1) * limit)) (JS.Num (page * limit)))
    with (firstn (Z.to_nat limit) (skipn (Z.to_nat ((page - 1) * limit)) us)).
  - eexists _, _. split; [reflexivity|].
    unfold present, JS.length. rewrite gt_num.
    rewrite length_skipn.
    replace (page * limit) with ((page - 1) * limit + limit) by lia.
    assert (0 <= (page - 1) * limit) as Hc by nia.
    generalize dependent ((page - 1) * limit). intros c Hc.
    destruct (Z.ltb_spec limit (Z.of_nat (List.length us - Z.to_nat c)));
      destruct (Z.ltb_spec (c + limit) (Z.of_nat (List.length us)));
      split; intros; try reflexivity; try discriminate; try congruence; lia.
  - rewrite slice_range by nia. f_equal. lia.
Qed.

(** X12. On the mock users the two ways of paging agree: for [page >= 1]
    and [limit >= 1], the cursor [(page - 1) * limit] gives the data of
    page [page], and [hasMore] is true exactly when that page has a
    [next]. *)
Theorem cursor_agrees_with_offset
    (r_age r_city : nat -> nat) (page limit : Z) :
  1 <= page -> 1 <= limit ->
  exists nextCursor hasMore,
    cursor_paginate (mock_users r_age r_city)
      (JS.Num ((page - 1) * limit)) (JS.Num limit)
    = CursorPage
        (Page.data (paginate (mock_users r_age r_city)
                      (JS.Num page) (JS.Num limit)))
        nextCursor hasMore
    /\ (hasMore = true
        <-> present (Page.next
                       (paginate (mock_users r_age r_city)
                          (JS.Num page) (JS.Num limit)))).
Proof.
  apply cursor_agrees_when_numbered.
  - apply mock_users_is_array.
  - apply after_mock_users.
Qed.

Lemma cursor_agrees_with_offset_witness :
  exists nextCursor hasMore,
    cursor_paginate (mock_users (fun i => i) (fun i => i))
      (JS.Num ((3 - 1) * 10)) (JS.Num 10)
    = CursorPage
        (Page.data (paginate (mock_users (fun i => i) (fun i => i))
                      (JS.Num 3) (JS.Num 10)))
        nextCursor hasMore.
Proof.
  destruct (cursor_agrees_with_offset (fun i => i) (fun i => i) 3 10
              ltac:(lia) ltac:(lia)) as (nextCursor & hasMore & E & _).
  exists nextCursor, hasMore. exact E.
Defined.

(** X13. Whatever the random draws, the mock users are 100 users with the
    ids 1 to 100 in order, each named [User<id>] with the email
    [user<id>@example.com], an age from 18 to 67 and one of the five
    cities. *)
Theorem mock_users_invariants (r_age r_city : nat -> nat) :
  List.length (mock_users r_age r_city) = 100%nat
  /\ map User.id (mock_users r_age r_city) = map Z.of_nat (seq 1 100)
  /\ Forall (fun u =>
               18 <= User.age u <= 67
               /\ In (User.city u) cities
               /\ exists i, User.id u = Z.of_nat i
                            /\ User.name u = "User" ++ JS.show i
                            /\ User.email u
                               = "user" ++ JS.show i ++ "@example.com")
       (mock_users r_age r_city).
Proof.
  split; [apply mock_users_length|]. split.
  - unfold mock_users. rewrite map_map, <- seq_shift, map_map.
    apply map_ext. intros i. cbn [User.id]. f_equal. lia.
  - unfold mock_users. rewrite Forall_forall. intros u Hu.
    apply in_map_iff in Hu. destruct Hu as (i & <- & _).
    cbn [User.age User.city User.id User.name User.email].
    pose proof (Nat.mod_upper_bound (r_age i) 50 ltac:(lia)).
    split; [lia|]. split.
    + apply nth_In. apply Nat.mod_upper_bound. discriminate.
    + exists (i + 1)%nat. auto.
Qed.

(** X14. Whatever the random draws, the mock products are 50 products with
    the ids 1 to 50 in order, each named [Product <id>], with a price from
    10 to 1009, a stock from 0 to 99 and one of the five categories. *)
Theorem mock_products_invariants (r_price r_category r_stock : nat -> nat) :
  let ps := mock_products r_price r_category r_stock in
  List.length ps = 50%nat
  /\ map Product.id ps = map Z.of_nat (seq 1 50)
  /\ Forall (fun p =>
               10 <= Product.price p <= 1009
               /\ 0 <= Product.stock p <= 99
               /\ In (Product.category p) categories
               /\ exists i, Product.id p = Z.of_nat i
                            /\ Product.name p = "Product " ++ JS.show i) ps.
Proof.
  intros ps. unfold ps, mock_products. clear ps. split; [|split].
  - rewrite length_map, length_seq. reflexivity.
  - rewrite map_map, <- seq_shift, map_map.
    apply map_ext. intros i. cbn [Product.id]. f_equal. lia.
  - rewrite Forall_forall. intros p Hp.
    apply in_map_iff in Hp. destruct Hp as (i & <- & _).
    cbn [Product.price Product.stock Product.category Product.id
         Product.name].
    pose proof (Nat.mod_upper_bound (r_price i) 1000 ltac:(lia)).
    pose proof (Nat.mod_upper_bound (r_stock i) 100 ltac:(lia)).
    split; [lia|]. split; [lia|]. split.
    + apply nth_In. apply Nat.mod_upper_bound. discriminate.
    + exists (i + 1)%nat. auto.
Qed.


(** ** Filters compose *)

Lemma subsequence_filter {A} (f : A -> bool) (l1 l2 : list A) :
  subsequence l1 l2 -> subsequence (filter f l1) (filter f l2).
Proof.
  induction 1 as [|x l1 l2 H IH|x l1 l2 H IH]; simpl.
  - constructor.
  - destruct (f x); [now constructor|exact IH].
  - destruct (f x); [now constructor|exact IH].
Qed.

Lemma filter_weaker {A} (f g : A -> bool) (l : list A) :
  (forall x, f x = true -> g x = true) ->
  subsequence (filter f l) (filter g l).
Proof.
  intros H. rewrite <- (filter_filter_implied f g l H).
  apply filter_subsequence.
Qed.

Lemma filter_comm {A} (f g : A -> bool) (l : list A) :
  filter f (filter g l) = filter g (filter f l).
Proof.
  induction l as [|a l IH]; simpl; [reflexivity|].
  destruct (f a) eqn:Ef, (g a) eqn:Eg; simpl; rewrite ?Ef, ?Eg, IH;
    reflexivity.
Qed.

Section Compose.
Context {rt : JS.Runtime}.

Lemma toLowerCase_not_empty (s : string) :
  s <> "" -> JS.toLowerCase s <> "".
Proof.
  intros Hs. unfold JS.toLowerCase, JS.lower_with.
  destruct (JS.all_ascii s) eqn:E.
  - destruct s; [contradiction|discriminate].
  - now apply JS.lowerUnicode_not_empty.
Qed.

(** X15. The two criteria of the product filter compose: the result with a
    category and a price range is a sub-sequence of the result with the
    price range alone and, for [minPrice >= 0], of the result with the
    category alone; the order in which the two filters run does not matter;
    and the category is compared without regard to case. *)
Theorem attribute_filter_composes
    (c : string) (lo hi : JS.number) (ps : list Product.t) :
  c <> "" ->
  subsequence (attribute_filter (Some c) lo hi ps)
              (attribute_filter None lo hi ps)
  /\ (at_least 0 lo ->
      subsequence (attribute_filter (Some c) lo hi ps)
                  (attribute_filter (Some c) (JS.Num 0) JS.Infinity ps))
  /\ attribute_filter (Some c) lo hi ps
     = filter (in_price_range lo hi) (filter (same_category c) ps)
  /\ attribute_filter (Some c) lo hi ps
     = attribute_filter (Some (JS.toLowerCase c)) lo hi ps.
Proof.
  intros Hc. pose proof (toLowerCase_not_empty c Hc) as Hlow.
  unfold attribute_filter.
  destruct (JS.toLowerCase c) as [|b low] eqn:Elow; [contradiction|].
  destruct c as [|a c]; [contradiction|].
  cbn [JS.truthy].
  split; [apply filter_subsequence|]. split; [|split].
  - intros Hlo. apply subsequence_filter. apply filter_weaker.
    intros p Hp. apply in_price_range_spec in Hp.
    apply in_price_range_spec. destruct Hp as (Hp & _).
    split; [|exact I]. cbn [at_most].
    destruct lo as [z| | |]; cbn [at_most at_least] in *;
      try contradiction. lia.
  - apply filter_comm.
  - apply filter_ext. intros p. unfold same_category.
    now rewrite <- Elow, toLowerCase_idempotent.
Qed.
End Compose.

Lemma attribute_filter_composes_witness :
  let p := fun i price category => Product.make i "Product" price category 1 in
  let ps := [p 1 20 "Books"; p 2 500 "Toys"; p 3 30 "books"] in
  attribute_filter (rt := example_runtime) (Some "BOOKS")
    (JS.Num 10) (JS.Num 100) ps
  = attribute_filter (rt := example_runtime) (Some "books")
      (JS.Num 10) (JS.Num 100) ps.
Proof.
  intros p ps.
  exact (proj2 (proj2 (proj2
           (attribute_filter_composes (rt := example_runtime)
              "BOOKS" (JS.Num 10) (JS.Num 100) ps
              ltac:(discriminate))))).
Defined.

(** ** Narrowing a search *)

Lemma append_assoc (a b c : string) : (a ++ b) ++ c = a ++ b ++ c.
Proof.
  induction a as [|x a IH]; simpl; [reflexivity|]. now rewrite IH.
Qed.

Lemma substring_trans (a b c : string) :
  substring a b -> substring b c -> substring a c.
Proof.
  intros (p1 & q1 & ->) (p2 & q2 & ->).
  exists (p2 ++ p1), (q1 ++ q2). now rewrite !append_assoc.
Qed.

Section Narrowing.
Context {rt : JS.Runtime}.

(** X16. A longer term narrows the search: when a term occurs in another
    one, case apart, every user that the longer term finds is found by the
    shorter one, in the same order. *)
Theorem search_narrows (longer shorter : string) (us : list User.t) :
  narrower longer shorter ->
  subsequence (search_filter longer us) (search_filter shorter us).
Proof.
  intros Hn. apply filter_weaker. intros u. unfold matches.
  rewrite !orb_true_iff, !includes_spec.
  intros [[H|H]|H]; [left; left|left; right|right];
    exact (substring_trans _ _ _ Hn H).
Qed.
End Narrowing.

Lemma search_narrows_witness :
  let u := fun i name => User.make i name "user@example.com" 30 "Chicago" in
  let us := [u 1 "User1"; u 2 "User2"; u 3 "User12"] in
  subsequence (search_filter (rt := example_runtime) "USER1" us)
              (search_filter (rt := example_runtime) "ser" us).
Proof.
  intros u us. apply search_narrows.
  exists "u", "1". reflexivity.
Defined.

(** ** Sort keys *)

Section SortKeys.
Context {rt : JS.Runtime}.
Variable localeCompare : string -> string -> Z.

Lemma known_field_dec (key : string) : known_field key \/ ~ known_field key.
Proof.
  unfold known_field.
  destruct (String.eqb_spec key "id"); [tauto|].
  destruct (String.eqb_spec key "name"); [tauto|].
  destruct (String.eqb_spec key "price"); [tauto|].
  destruct (String.eqb_spec key "category"); [tauto|].
  destruct (String.eqb_spec key "stock"); tauto.
Qed.

(** On a property of the products the comparator returns a number. *)
Lemma compare_known (sortBy order : string) :
  known_field sortBy ->
  exists cmp, forall a b,
    compare_products localeCompare sortBy order a b = Some (cmp a b).
Proof.
  unfold compare_products.
  intros [ -> | [ -> | [ -> | [ -> | -> ]]]]; simpl;
    destruct (String.eqb order "desc"); simpl; eexists; intros a b;
    match goal with
    | |- Some ?v = Some _ =>
        pattern a, b;
        match goal with
        | |- (fun x y => Some (@?f x y) = _) _ _ =>
            instantiate (1 := f); reflexivity
        end
    end.
Qed.

(** On anything else it throws. *)
Lemma compare_unknown (sortBy order : string) (a b : Product.t) :
  ~ known_field sortBy ->
  compare_products localeCompare sortBy order a b = None.
Proof.
  unfold known_field. intros Hk.
  assert (String.eqb sortBy "id" = false) as E1
    by (apply String.eqb_neq; tauto).
  assert (String.eqb sortBy "name" = false) as E2
    by (apply String.eqb_neq; tauto).
  assert (String.eqb sortBy "price" = false) as E3
    by (apply String.eqb_neq; tauto).
  assert (String.eqb sortBy "category" = false) as E4
    by (apply String.eqb_neq; tauto).
  assert (String.eqb sortBy "stock" = false) as E5
    by (apply String.eqb_neq; tauto).
  unfold compare_products, get. rewrite E1, E2, E3, E4, E5. simpl.
  now destruct (String.eqb order "desc").
Qed.

Lemma insert_length {A} (compare : A -> A -> option Z) (a : A) (l s : list A) :
  JS.insert compare a l = Some s -> List.length s = S (List.length l).
Proof.
  revert s. induction l as [|b l IH]; intros s; simpl.
  - intros E. injection E as <-. reflexivity.
  - destruct (compare a b) as [c|]; [|discriminate].
    destruct (0 <? c).
    + destruct (JS.insert compare a l) as [s'|]; [|discriminate].
      simpl. intros E. injection E as <-. simpl. now rewrite (IH s').
    + intros E. injection E as <-. reflexivity.
Qed.

Lemma sort_length {A} (compare : A -> A -> option Z) (l s : list A) :
  JS.sort compare l = Some s -> List.length s = List.length l.
Proof.
  revert s. induction l as [|a l IH]; intros s; simpl.
  - intros E. injection E as <-. reflexivity.
  - destruct (JS.sort compare l) as [s'|]; [|discriminate].
    intros E. apply insert_length in E. now rewrite E, (IH s').
Qed.

(** A comparator that always throws makes the sort throw as soon as there
    are two elements to compare. *)
Lemma sort_throws {A} (compare : A -> A -> option Z) (l : list A) :
  (forall a b, compare a b = None) ->
  (2 <= List.length l)%nat -> JS.sort compare l = None.
Proof.
  intros Hc. destruct l as [|a [|b l]]; simpl; try lia. intros _.
  destruct (JS.sort compare l) as [s|] eqn:Es; [|reflexivity].
  destruct (JS.insert compare b s) as [s'|] eqn:Ei; [|reflexivity].
  apply insert_length in Ei. destruct s' as [|x s']; [discriminate Ei|].
  simpl. now rewrite Hc.
Qed.

Lemma sort_short {A} (compare : A -> A -> option Z) (l : list A) :
  (List.length l <= 1)%nat -> JS.sort compare l = Some l.
Proof.
  destruct l as [|a [|b l]]; simpl; try reflexivity. lia.
Qed.

(** X17. The sorted endpoint fails exactly when [sortBy] is not a property
    of the products and there are at least two products to compare: on
    [id], [name], [price], [category] and [stock] the sort always returns,
    on any other key the comparator throws at the first comparison, and
    with fewer than two products nothing is compared and the request
    succeeds. *)
Theorem sorted_endpoint_fails_iff (q : Query.t) (w : world) :
  fst (serve localeCompare ApiProductsSorted q w) = Uncaught
  <-> ~ known_field (JS.or_string (Query.sortBy q) "id")
      /\ (2 <= List.length (products w))%nat.
Proof.
  rewrite serve_sorted. cbv zeta. unfold sort_products.
  set (sortBy := JS.or_string (Query.sortBy q) "id").
  set (order := JS.or_string (Query.order q) "asc").
  destruct (known_field_dec sortBy) as [Hk|Hk].
  - destruct (compare_known sortBy order Hk) as (cmp & Hcmp).
    rewrite (sort_total _ cmp Hcmp). simpl.
    split; [discriminate|tauto].
  - destruct (Nat.le_gt_cases 2 (List.length (products w))) as [Hlen|Hlen].
    + rewrite sort_throws;
        [tauto|intros a b; now apply compare_unknown|exact Hlen].
    + rewrite sort_short by lia. simpl. split; [discriminate|lia].
Qed.

Lemma stable_sort_ext {A} (c1 c2 : A -> A -> Z) (l : list A) :
  (forall a b, c1 a b = c2 a b) -> stable_sort c1 l = stable_sort c2 l.
Proof.
  intros H.
  assert (forall a s, stable_insert c1 a s = stable_insert c2 a s) as Hi.
  { intros a s. induction s as [|b s IH]; simpl; [reflexivity|].
    now rewrite H, IH. }
  induction l as [|a l IH]; simpl; [reflexivity|]. now rewrite IH, Hi.
Qed.

Lemma ascending_ids_no_ties (ps : list Product.t) :
  ascending_ids ps -> no_ties (key_compare localeCompare "id") ps.
Proof.
  induction 1 as [|a l Hl IH Ha]; constructor; [|exact IH].
  revert Ha. apply Forall_impl. intros b Hab. unfold key_compare. simpl. lia.
Qed.

Lemma ascending_ids_sorted (order : string) (ps : list Product.t) :
  String.eqb order "desc" = false -> ascending_ids ps ->
  Sorted (not_after (order_compare localeCompare "id" order)) ps.
Proof.
  intros Ho Hasc. apply StronglySorted_Sorted.
  revert Hasc. apply StronglySorted_weaken. intros a b Hab.
  unfold not_after, order_compare, key_compare. rewrite Ho. simpl. lia.
Qed.

(** The mock products are generated in ascending order of id. *)
Lemma mock_products_ascending (r_price r_category r_stock : nat -> nat) :
  ascending_ids (mock_products r_price r_category r_stock).
Proof.
  unfold ascending_ids, mock_products.
  apply StronglySorted_map_seq. intros i j Hij. cbn [Product.id]. lia.
Qed.

(** X18. Sorting by [id] in ascending order, which is what the sorted
    endpoint does when [sortBy] and [order] are absent, leaves a collection
    in ascending order of id as it is: the endpoint then returns the same
    page as plain pagination of the products. *)
Theorem default_sort_is_identity (q : Query.t) (w : world) :
  JS.or_string (Query.sortBy q) "id" = "id" ->
  JS.or_string (Query.order q) "asc" <> "desc" ->
  ascending_ids (products w) ->
  sort_products localeCompare "id" (JS.or_string (Query.order q) "asc")
    (products w) = Some (products w)
  /\ page_of_products (fst (serve localeCompare ApiProductsSorted q w))
     = Some (paginate (products w) (page_of q) (limit_of q)).
Proof.
  intros Hby Hord Hasc.
  assert (sort_products localeCompare "id"
            (JS.or_string (Query.order q) "asc") (products w)
          = Some (products w)) as Hsort.
  { rewrite sort_products_supported by (left; reflexivity).
    f_equal. apply stable_sort_sorted. apply ascending_ids_sorted.
    - now apply String.eqb_neq.
    - exact Hasc. }
  split; [exact Hsort|].
  rewrite serve_sorted. cbv zeta. rewrite Hby, Hsort. reflexivity.
Qed.

(** X19. Sorting by [id] in descending order reverses a collection in
    ascending order of id: the first page of [sortBy=id&order=desc] starts
    with the last product. *)
Theorem descending_id_is_reverse (q : Query.t) (w : world) :
  JS.or_string (Query.sortBy q) "id" = "id" ->
  JS.or_string (Query.order q) "asc" = "desc" ->
  ascending_ids (products w) ->
  sort_products localeCompare "id" "desc" (products w)
  = Some (rev (products w))
  /\ page_of_products (fst (serve localeCompare ApiProductsSorted q w))
     = Some (paginate (rev (products w)) (page_of q) (limit_of q)).
Proof.
  intros Hby Hord Hasc.
  assert (sort_products localeCompare "id" "desc" (products w)
          = Some (rev (products w))) as Hsort.
  { rewrite sort_products_supported by (left; reflexivity). f_equal.
    rewrite (stable_sort_ext _
               (fun a b => - key_compare localeCompare "id" a b))
      by reflexivity.
    rewrite <- stable_sort_reverse.
    - f_equal. apply stable_sort_sorted.
      apply (ascending_ids_sorted "asc"); [reflexivity|exact Hasc].
    - apply key_compare_consistent; [left; reflexivity|discriminate].
    - now apply ascending_ids_no_ties. }
  split; [exact Hsort|].
  rewrite serve_sorted. cbv zeta. rewrite Hby, Hord, Hsort. reflexivity.
Qed.
End SortKeys.

Lemma default_sort_is_identity_witness :
  let p := fun i price => Product.make i "Product" price "Books" 1 in
  let w := World [] [p 1 30; p 2 10; p 3 20] [] in
  page_of_products
    (fst (serve (rt := example_runtime) (fun _ _ => 0) ApiProductsSorted
            Query.empty w))
  = Some (paginate (products w) (JS.Num 1) (JS.Num 10)).
Proof.
  intros p w.
  assert (ascending_ids (products w)) as Hasc.
  { unfold ascending_ids, w. repeat constructor; simpl; lia. }
  exact (proj2 (default_sort_is_identity (rt := example_runtime)
                  (fun _ _ => 0) Query.empty w
                  eq_refl ltac:(discriminate) Hasc)).
Defined.

Lemma descending_id_is_reverse_witness :
  let p := fun i price => Product.make i "Product" price "Books" 1 in
  let w := World [] [p 1 30; p 2 10; p 3 20] [] in
  sort_products (fun _ _ => 0) "id" "desc" (products w)
  = Some [p 3 20; p 2 10; p 1 30].
Proof.
  intros p w.
  assert (ascending_ids (products w)) as Hasc.
  { unfold ascending_ids, w. repeat constructor; simpl; lia. }
  exact (proj1 (descending_id_is_reverse (rt := example_runtime)
                  (fun _ _ => 0)
                  (Query.make None None None None None None
                     (Some "id") (Some "desc") None)
                  w eq_refl eq_refl Hasc)).
Defined.

(** ** What a page is made of *)

(** X20. Whatever the page and the limit, also those that only the
    unvalidated endpoints let through, the infinities among them, the data
    of a page are a run of consecutive elements of the sequence: nothing is
    added, repeated or reordered. *)
Theorem page_is_a_run {A} (sequence : list A) (page limit : JS.number) :
  exists before behind,
    sequence
    = (before ++ Page.data (paginate sequence page limit) ++ behind)%list.
Proof.
  unfold paginate, JS.slice. cbn [Page.data].
  match goal with
  | |- context [firstn ?n (skipn ?k sequence)] =>
      exists (firstn k sequence), (skipn n (skipn k sequence))
  end.
  now rewrite firstn_skipn, firstn_skipn.
Qed.

Section EmptyRange.
Context {rt : JS.Runtime}.

(** X21. An empty price range keeps nothing: when [minPrice] exceeds
    [maxPrice], the filter returns no product, whatever the category. *)
Theorem empty_price_range
    (category : option string) (lo hi : JS.number) (ps : list Product.t) :
  JS.lt hi lo = true -> attribute_filter category lo hi ps = [].
Proof.
  intros H.
  assert (filter (in_price_range lo hi) ps = []) as E.
  { apply filter_none. intros p _.
    destruct (in_price_range lo hi p) eqn:Ep; [|reflexivity].
    apply in_price_range_spec in Ep. destruct Ep as (Hlo & Hhi).
    destruct lo as [x| | |], hi as [y| | |];
      cbn [at_most within JS.lt] in *;
      try contradiction; try discriminate.
    apply Z.ltb_lt in H. lia. }
  unfold attribute_filter. rewrite E.
  destruct (JS.truthy category); [|reflexivity].
  now destruct category.
Qed.
End EmptyRange.

Lemma empty_price_range_witness :
  attribute_filter (rt := example_runtime) (Some "Books")
    (JS.Num 500) (JS.Num 100)
    [Product.make 1 "Product 1" 300 "Books" 5] = [].
Proof.
  exact (empty_price_range (rt := example_runtime) (Some "Books")
           (JS.Num 500) (JS.Num 100)
           [Product.make 1 "Product 1" 300 "Books" 5] eq_refl).
Defined.
